(** * Value range propagation: the integer domain of [staticcheck/vrp/int.go]

    A shallow embedding of the extended integers [Z], the interval lattice
    [Interval] and the constraint evaluators of package [vrp], followed by
    the properties established about them.

    Conventions of the embedding.
    - Go's [int] is an unbounded integer here: every [int] the package
      computes is a sign, a comparison result or a product of two signs.
      The one narrowing conversion, [int8(...)], is written out as [int8].
    - A [*big.Int] is [option] of an integer: [None] is the nil pointer.
      Dereferencing nil panics, which [math/big] does on every method the
      package uses, except [Cmp] on two identical pointers.
    - A panic is a value of [Result]; code that can panic lives in that
      monad.  Methods with pointer receivers live in the state monad
      [Method], whose state is the receiver and the graph. *)

From Stdlib Require Import Ascii String DecimalString DecimalPos DecimalZ.
From Stdlib Require Import ZArith List Bool Lia.
Import ListNotations.
Local Open Scope Z_scope.

Module vrp.

Abbreviation int := BinNums.Z (only parsing).

(** ** Panics and results *)

Inductive Panic : Type :=
| NilDereference        (* invalid memory address or nil pointer dereference *)
| InterfaceConversion   (* a failed type assertion x.(T) *)
| AddNotDefined         (* panic("%s + %s is not defined") *)
| SubNotDefined         (* panic("%s - %s is not defined") *)
| MaxNoArguments        (* panic("Max called with no arguments") *)
| MinNoArguments        (* panic("Min called with no arguments") *)
| StackOverflow.        (* the call depth allowed to Add/Sub is used up *)

Inductive Result (A : Type) : Type :=
| Ok (a : A)
| Abort (p : Panic).
Arguments Ok {A} a.
Arguments Abort {A} p.

Definition bind {A B : Type} (r : Result A) (f : A -> Result B) : Result B :=
  match r with
  | Ok a => f a
  | Abort p => Abort p
  end.

Notation "x <- e ;; k" := (bind e (fun x => k))
  (at level 61, e at next level, right associativity).

(** ** math/big, as far as the package uses it *)

Module big.

Definition Int : Type := option int.

(* &big.Int{} *)
Definition zero : Int := Some 0.

Definition NewInt (n : int) : Int := Some n.

Definition Sign (x : Int) : Result int :=
  match x with
  | Some n => Ok (Z.sgn n)
  | None => Abort NilDereference
  end.

Definition of_comparison (c : comparison) : int :=
  match c with Lt => -1 | Eq => 0 | Gt => 1 end.

(* x.Cmp(y) starts with [case x == y], so two nil pointers compare equal *)
Definition Cmp (x y : Int) : Result int :=
  match x, y with
  | Some a, Some b => Ok (of_comparison (a ?= b))
  | None, None => Ok 0
  | _, _ => Abort NilDereference
  end.

Definition binop (f : int -> int -> int) (x y : Int) : Result Int :=
  match x, y with
  | Some a, Some b => Ok (Some (f a b))
  | _, _ => Abort NilDereference
  end.

Definition Add : Int -> Int -> Result Int := binop Z.add.
Definition Sub : Int -> Int -> Result Int := binop Z.sub.
Definition Mul : Int -> Int -> Result Int := binop Z.mul.

Definition Neg (x : Int) : Result Int :=
  match x with
  | Some a => Ok (Some (- a))
  | None => Abort NilDereference
  end.

(* n.Lsh(n, k) *)
Definition Lsh (x : Int) (k : int) : Result Int :=
  match x with
  | Some a => Ok (Some (Z.shiftl a k))
  | None => Abort NilDereference
  end.

End big.

(** ** Extended integers *)

(* conversion of an int to int8 *)
Definition int8 (x : int) : int := (x + 128) mod 256 - 128.

Record Z : Type := mkZ {
  infinity : int;      (* int8 *)
  integer : big.Int
}.

Definition NewZ (n : big.Int) : Z := {| infinity := 0; integer := n |}.

Definition NInfinity : Z := {| infinity := -1; integer := None |}.
Definition PInfinity : Z := {| infinity := 1; integer := None |}.

(* [z == NInfinity], [z == PInfinity]: struct equality compares both
   fields, and the sentinel's pointer is nil *)
Definition is_nil (x : big.Int) : bool :=
  match x with None => true | Some _ => false end.

Definition eq_NInfinity (z : Z) : bool :=
  (infinity z =? -1) && is_nil (integer z).

Definition eq_PInfinity (z : Z) : bool :=
  (infinity z =? 1) && is_nil (integer z).

Definition Infinite (z1 : Z) : bool := negb (infinity z1 =? 0).

Definition Z_Sign (z1 : Z) : Result int :=
  if negb (infinity z1 =? 0) then Ok (infinity z1)
  else big.Sign (integer z1).

Definition Z_Negate (z1 : Z) : Result Z :=
  if infinity z1 =? 1 then Ok NInfinity
  else if infinity z1 =? -1 then Ok PInfinity
  else n <- big.Neg (integer z1) ;; Ok (NewZ n).

(** [Add] and [Sub] call each other on a negated second operand.  The
    recursion is on the call depth still allowed; [Z_Add] and [Z_Sub] give
    it two frames, which [Add_depth_enough] and [Sub_depth_enough] show to
    be all the code ever uses. *)
Fixpoint Add_depth (depth : nat) (z1 z2 : Z) {struct depth} : Result Z :=
  match depth with
  | O => Abort StackOverflow
  | S depth' =>
      s <- Z_Sign z2 ;;
      if s =? -1 then
        n <- Z_Negate z2 ;; Sub_depth depth' z1 n
      else if eq_NInfinity z1 then Ok NInfinity
      else if eq_PInfinity z1 then Ok PInfinity
      else if eq_PInfinity z2 then Ok PInfinity
      else if negb (Infinite z1) && negb (Infinite z2) then
        n <- big.Add (integer z1) (integer z2) ;; Ok (NewZ n)
      else Abort AddNotDefined
  end
with Sub_depth (depth : nat) (z1 z2 : Z) {struct depth} : Result Z :=
  match depth with
  | O => Abort StackOverflow
  | S depth' =>
      s <- Z_Sign z2 ;;
      if s =? -1 then
        n <- Z_Negate z2 ;; Add_depth depth' z1 n
      else if negb (Infinite z1) && negb (Infinite z2) then
        n <- big.Sub (integer z1) (integer z2) ;; Ok (NewZ n)
      else if negb (eq_PInfinity z1) && eq_PInfinity z2 then Ok NInfinity
      else if Infinite z1 && negb (Infinite z2) then
        Ok {| infinity := infinity z1; integer := None |}
      else Abort SubNotDefined
  end.

Definition Z_Add (z1 z2 : Z) : Result Z := Add_depth 2 z1 z2.
Definition Z_Sub (z1 z2 : Z) : Result Z := Sub_depth 2 z1 z2.

(* x != nil && x.Sign() == 0, with Go's short-circuit evaluation *)
Definition nonnil_zero (x : big.Int) : bool :=
  match x with
  | Some n => Z.sgn n =? 0
  | None => false
  end.

Definition Z_Mul (z1 z2 : Z) : Result Z :=
  if nonnil_zero (integer z1) || nonnil_zero (integer z2) then
    Ok (NewZ big.zero)
  else if negb (infinity z1 =? 0) || negb (infinity z2 =? 0) then
    s1 <- Z_Sign z1 ;;
    s2 <- Z_Sign z2 ;;
    Ok {| infinity := int8 (s1 * s2); integer := None |}
  else
    n <- big.Mul (integer z1) (integer z2) ;; Ok (NewZ n).

Definition Z_Cmp (z1 z2 : Z) : Result int :=
  if (infinity z1 =? infinity z2) && negb (infinity z1 =? 0) then Ok 0
  else if eq_PInfinity z1 then Ok 1
  else if eq_NInfinity z1 then Ok (-1)
  else if eq_NInfinity z2 then Ok 1
  else if eq_PInfinity z2 then Ok (-1)
  else big.Cmp (integer z1) (integer z2).

(* for _, z := range zs[1:] { if z.Cmp(ret) == 1 { ret = z } } *)
Fixpoint Max_loop (ret : Z) (zs : list Z) : Result Z :=
  match zs with
  | [] => Ok ret
  | z :: zs' =>
      c <- Z_Cmp z ret ;;
      Max_loop (if c =? 1 then z else ret) zs'
  end.

Definition Max (zs : list Z) : Result Z :=
  match zs with
  | [] => Abort MaxNoArguments
  | [z] => Ok z
  | z :: zs' => Max_loop z zs'
  end.

Fixpoint Min_loop (ret : Z) (zs : list Z) : Result Z :=
  match zs with
  | [] => Ok ret
  | z :: zs' =>
      c <- Z_Cmp z ret ;;
      Min_loop (if c =? -1 then z else ret) zs'
  end.

Definition Min (zs : list Z) : Result Z :=
  match zs with
  | [] => Abort MinNoArguments
  | [z] => Ok z
  | z :: zs' => Min_loop z zs'
  end.

(** ** Intervals *)

Record Interval : Type := mkInterval {
  known : bool;
  lower : Z;
  upper : Z
}.

Definition EmptyI : Interval :=
  {| known := true; lower := PInfinity; upper := NInfinity |}.

(* Z{} and Interval{}, the zero values *)
Definition Z_zero_value : Z := {| infinity := 0; integer := None |}.
Definition Interval_zero_value : Interval :=
  {| known := false; lower := Z_zero_value; upper := Z_zero_value |}.

Definition NewInterval (l u : Z) : Result Interval :=
  c <- Z_Cmp u l ;;
  if c =? -1 then Ok EmptyI
  else Ok {| known := true; lower := l; upper := u |}.

Definition IsKnown (i : Interval) : bool := known i.

Definition Empty (i : Interval) : bool :=
  eq_PInfinity (lower i) && eq_NInfinity (upper i).

Definition IsMaxRange (i : Interval) : bool :=
  eq_NInfinity (lower i) && eq_PInfinity (upper i).

(** The [Range] interface: the integer domain implements it with
    [Interval]; any other implementation (or a nil interface value) is
    [OtherRange]. *)
Inductive Range : Type :=
| IntervalRange (i : Interval)
| OtherRange.

(* r.(Interval) *)
Definition assert_Interval (r : Range) : Result Interval :=
  match r with
  | IntervalRange i => Ok i
  | OtherRange => Abort InterfaceConversion
  end.

Definition Interval_Intersection (i1 i2 : Interval) : Result Interval :=
  if negb (IsKnown i1) then Ok i2
  else if negb (IsKnown i2) then Ok i1
  else if Empty i1 || Empty i2 then Ok EmptyI
  else
    lo <- Max [lower i1; lower i2] ;;
    hi <- Min [upper i1; upper i2] ;;
    i3 <- NewInterval lo hi ;;
    c <- Z_Cmp (lower i3) (upper i3) ;;
    if c =? 1 then Ok EmptyI else Ok i3.

Definition Interval_Union (i1 : Interval) (other : Range) : Result Range :=
  let i2 := match other with IntervalRange i => i | OtherRange => EmptyI end in
  if Empty i1 || negb (IsKnown i1) then Ok (IntervalRange i2)
  else if Empty i2 || negb (IsKnown i2) then Ok (IntervalRange i1)
  else
    lo <- Min [lower i1; lower i2] ;;
    hi <- Max [upper i1; upper i2] ;;
    i3 <- NewInterval lo hi ;;
    Ok (IntervalRange i3).

Definition Interval_Add (i1 i2 : Interval) : Result Interval :=
  if Empty i1 || Empty i2 then Ok EmptyI
  else
    let '(l1, u1, l2, u2) := (lower i1, upper i1, lower i2, upper i2) in
    l <- Z_Add l1 l2 ;;
    u <- Z_Add u1 u2 ;;
    NewInterval l u.

Definition Interval_Sub (i1 i2 : Interval) : Result Interval :=
  if Empty i1 || Empty i2 then Ok EmptyI
  else
    let '(l1, u1, l2, u2) := (lower i1, upper i1, lower i2, upper i2) in
    l <- Z_Sub l1 u2 ;;
    u <- Z_Sub u1 l2 ;;
    NewInterval l u.

(* x1.Mul(y1), x1.Mul(y2), x2.Mul(y1), x2.Mul(y2), evaluated in this order *)
Definition corner_products (x1 x2 y1 y2 : Z) : Result (list Z) :=
  p11 <- Z_Mul x1 y1 ;;
  p12 <- Z_Mul x1 y2 ;;
  p21 <- Z_Mul x2 y1 ;;
  p22 <- Z_Mul x2 y2 ;;
  Ok [p11; p12; p21; p22].

Definition Interval_Mul (i1 i2 : Interval) : Result Interval :=
  if Empty i1 || Empty i2 then Ok EmptyI
  else
    let '(x1, x2) := (lower i1, upper i1) in
    let '(y1, y2) := (lower i2, upper i2) in
    ps <- corner_products x1 x2 y1 y2 ;;
    lo <- Min ps ;;
    ps' <- corner_products x1 x2 y1 y2 ;;
    hi <- Max ps' ;;
    NewInterval lo hi.

(** ** go/types and ssa, as far as the package uses them *)

Module types.

Inductive BasicKind : Type :=
| Bool | Int | Int8 | Int16 | Int32 | Int64
| Uint | Uint8 | Uint16 | Uint32 | Uint64 | Uintptr
| Float32 | Float64 | Complex64 | Complex128
| String | UnsafePointer.

(* what Type().Underlying() is: a pointer to types.Basic, or another type *)
Inductive Type_ : Type :=
| Basic (k : BasicKind)
| NotBasic.

(* b.Info() & types.IsUnsigned != 0 *)
Definition IsUnsigned (k : BasicKind) : bool :=
  match k with
  | Uint | Uint8 | Uint16 | Uint32 | Uint64 | Uintptr => true
  | _ => false
  end.

(* (&types.StdSizes{WordSize: 8, MaxAlign: 1}).Sizeof on a basic type *)
Definition Sizeof (k : BasicKind) : int :=
  match k with
  | Bool | Int8 | Uint8 => 1
  | Int16 | Uint16 => 2
  | Int32 | Uint32 | Float32 => 4
  | Int64 | Uint64 | Float64 | Complex64 => 8
  | Complex128 => 16
  | String => 16
  | Int | Uint | Uintptr | UnsafePointer => 8
  end.

(* the type assertion of t to a pointer to types.Basic *)
Definition assert_Basic (t : Type_) : Result BasicKind :=
  match t with
  | Basic k => Ok k
  | NotBasic => Abort InterfaceConversion
  end.

End types.

Module ssa.

(* a program value: its identity and the underlying type of its type *)
Record Value : Type := mkValue {
  ident : nat;
  Type_ : types.Type_
}.

Definition Value_eq_dec (v w : Value) : {v = w} + {v <> w}.
Proof. repeat decide equality. Defined.

End ssa.

Module token.
Inductive Token : Type := ADD | SUB | MUL.
End token.

(* map[ssa.Value]Range, and the comma-ok lookup m[v] *)
Definition Ranges : Type := list (ssa.Value * Range).

Fixpoint Ranges_get (m : Ranges) (v : ssa.Value) : option Range :=
  match m with
  | [] => None
  | (w, r) :: m' => if ssa.Value_eq_dec w v then Some r else Ranges_get m' v
  end.

(** The graph belongs to the scheduler; the package only calls its read
    accessor [g.Range(v)]. *)
Record Graph : Type := mkGraph {
  Graph_Range : ssa.Value -> Range
}.

Definition InfinityFor (v : ssa.Value) : Result Interval :=
  match ssa.Type_ v with
  | types.Basic b =>
      if types.IsUnsigned b then NewInterval (NewZ big.zero) PInfinity
      else NewInterval NInfinity PInfinity
  | types.NotBasic => NewInterval NInfinity PInfinity
  end.

(** ** Methods with a pointer receiver

    A method of [*C] taking [g *Graph] may read and write both objects:
    it maps the two to a result and to the two as they are afterwards. *)

Definition Method (C A : Type) : Type := C -> Graph -> Result A * (C * Graph).

Definition mret {C A : Type} (a : A) : Method C A :=
  fun c g => (Ok a, (c, g)).

Definition mbind {C A B : Type} (m : Method C A) (f : A -> Method C B)
  : Method C B :=
  fun c g =>
    match m c g with
    | (Ok a, (c', g')) => f a c' g'
    | (Abort p, s) => (Abort p, s)
    end.

Definition lift {C A : Type} (r : Result A) : Method C A :=
  fun c g => (r, (c, g)).

(* reading the receiver's fields *)
Definition self {C : Type} : Method C C :=
  fun c g => (Ok c, (c, g)).

(* g.Range(v) *)
Definition g_Range {C : Type} (v : ssa.Value) : Method C Range :=
  fun c g => (Ok (Graph_Range g v), (c, g)).

(* an assignment to a field of the receiver *)
Definition assign {C : Type} (f : C -> C) : Method C unit :=
  fun c g => (Ok tt, (f c, g)).

Notation "x <~ e ;; k" := (mbind e (fun x => k))
  (at level 61, e at next level, right associativity).

(** ** Constraints *)

Module ArithmeticConstraint.

Record t : Type := mk {
  y : ssa.Value;                                   (* aConstraint *)
  A : ssa.Value;
  B : ssa.Value;
  Op : token.Token;
  Fn : Interval -> Interval -> Result Interval
}.

Definition Eval : Method t Range :=
  c <~ self ;;
  r1 <~ g_Range (A c) ;;
  i1 <~ lift (assert_Interval r1) ;;
  r2 <~ g_Range (B c) ;;
  i2 <~ lift (assert_Interval r2) ;;
  if negb (IsKnown i1) || negb (IsKnown i2) then
    mret (IntervalRange Interval_zero_value)
  else
    i <~ lift (Fn c i1 i2) ;;
    mret (IntervalRange i).

Definition Operands (c : t) : list ssa.Value := [A c; B c].

End ArithmeticConstraint.

Definition NewArithmeticConstraint (a b y : ssa.Value) (op : token.Token)
    (fn : Interval -> Interval -> Result Interval) : ArithmeticConstraint.t :=
  {| ArithmeticConstraint.y := y;
     ArithmeticConstraint.A := a;
     ArithmeticConstraint.B := b;
     ArithmeticConstraint.Op := op;
     ArithmeticConstraint.Fn := fn |}.

Module IntConversionConstraint.

Record t : Type := mk {
  y : ssa.Value;                                   (* aConstraint *)
  X : ssa.Value
}.

Definition Operands (c : t) : list ssa.Value := [X c].

(* n := big.NewInt(1); n.Lsh(n, uint(fromB*8)); n.Sub(n, big.NewInt(1)) *)
Definition max_of_width (fromB : int) : Result big.Int :=
  n <- big.Lsh (big.NewInt 1) (fromB * 8) ;;
  big.Sub n (big.NewInt 1).

Definition Eval : Method t Range :=
  c <~ self ;;
  r1 <~ g_Range (X c) ;;
  fromI <~ lift (assert_Interval r1) ;;
  r2 <~ g_Range (y c) ;;
  toI <~ lift (assert_Interval r2) ;;
  fromT <~ lift (types.assert_Basic (ssa.Type_ (X c))) ;;
  toT <~ lift (types.assert_Basic (ssa.Type_ (y c))) ;;
  let fromB := types.Sizeof fromT in
  let toB := types.Sizeof toT in
  if negb (IsKnown fromI) then mret (IntervalRange toI)
  else if negb (IsKnown toI) then mret (IntervalRange fromI)
  else if types.IsUnsigned fromT && (toB >? fromB) then
    n <~ lift (max_of_width fromB) ;;
    lo <~ lift (Max [NewZ big.zero; lower fromI]) ;;
    hi <~ lift (Min [NewZ n; upper toI]) ;;
    i <~ lift (NewInterval lo hi) ;;
    mret (IntervalRange i)
  else if negb (types.IsUnsigned fromT) && negb (types.IsUnsigned toT)
          && (toB >? fromB) then
    n <~ lift (max_of_width fromB) ;;
    lo <~ lift (Max [NInfinity; lower fromI]) ;;
    hi <~ lift (Min [NewZ n; upper toI]) ;;
    i <~ lift (NewInterval lo hi) ;;
    mret (IntervalRange i)
  else mret (IntervalRange fromI).

End IntConversionConstraint.

Module FutureIntersectionConstraint.

Record t : Type := mk {
  y : ssa.Value;                                   (* aConstraint *)
  ranges : Ranges;
  X : ssa.Value;
  lower : option ssa.Value;                        (* nil when absent *)
  lowerOffset : Z;
  upper : option ssa.Value;
  upperOffset : Z;
  I : Interval;
  resolved : bool
}.

Definition set_I (i : Interval) (c : t) : t :=
  {| y := y c; ranges := ranges c; X := X c;
     lower := lower c; lowerOffset := lowerOffset c;
     upper := upper c; upperOffset := upperOffset c;
     I := i; resolved := resolved c |}.

Definition Futures (c : t) : list ssa.Value :=
  match lower c with Some v => [v] | None => [] end
  ++ match upper c with Some v => [v] | None => [] end.

Definition Operands (c : t) : list ssa.Value := [X c].

Definition Eval : Method t Range :=
  c <~ self ;;
  r <~ g_Range (X c) ;;
  xi <~ lift (assert_Interval r) ;;
  i <~ lift (Interval_Intersection xi (I c)) ;;
  mret (IntervalRange i).

(* li, ok := c.ranges[v]; if !ok { li = InfinityFor(v) } *)
Definition range_or_infinity (m : Ranges) (v : ssa.Value) : Result Range :=
  match Ranges_get m v with
  | Some r => Ok r
  | None => i <- InfinityFor v ;; Ok (IntervalRange i)
  end.

Definition Resolve : Method t unit :=
  c <~ self ;;
  l <~ match lower c with
       | Some v =>
           li <~ lift (range_or_infinity (ranges c) v) ;;
           i <~ lift (assert_Interval li) ;;
           lift (Z_Add (vrp.lower i) (lowerOffset c))
       | None => mret NInfinity
       end ;;
  u <~ match upper c with
       | Some v =>
           ui <~ lift (range_or_infinity (ranges c) v) ;;
           i <~ lift (assert_Interval ui) ;;
           lift (Z_Add (vrp.upper i) (upperOffset c))
       | None => mret PInfinity
       end ;;
  i <~ lift (NewInterval l u) ;;
  assign (set_I i).

End FutureIntersectionConstraint.

Module IntersectionConstraint.

Record t : Type := mk {
  y : ssa.Value;                                   (* aConstraint *)
  X : ssa.Value;
  I : Interval
}.

Definition Operands (c : t) : list ssa.Value := [X c].

Definition Eval : Method t Range :=
  c <~ self ;;
  r <~ g_Range (X c) ;;
  xi <~ lift (assert_Interval r) ;;
  if negb (IsKnown xi) then mret (IntervalRange (I c))
  else
    i <~ lift (Interval_Intersection xi (I c)) ;;
    mret (IntervalRange i).

End IntersectionConstraint.

Module IntervalConstraint.

Record t : Type := mk {
  y : ssa.Value;                                   (* aConstraint *)
  I : Interval
}.

Definition Operands (c : t) : list ssa.Value := [].

Definition Eval : Method t Range :=
  c <~ self ;;
  mret (IntervalRange (I c)).

End IntervalConstraint.

(** The implementations of the [Constraint] interface in this file.
    [AddConstraint], [SubConstraint] and [MulConstraint] embed a pointer
    to an [ArithmeticConstraint] and inherit its [Eval]. *)
Inductive Constraint : Type :=
| AddConstraint (c : ArithmeticConstraint.t)
| SubConstraint (c : ArithmeticConstraint.t)
| MulConstraint (c : ArithmeticConstraint.t)
| IntConversion (c : IntConversionConstraint.t)
| FutureIntersection (c : FutureIntersectionConstraint.t)
| Intersection (c : IntersectionConstraint.t)
| Leaf (c : IntervalConstraint.t).

Definition NewAddConstraint (a b y : ssa.Value) : Constraint :=
  AddConstraint (NewArithmeticConstraint a b y token.ADD Interval_Add).
Definition NewSubConstraint (a b y : ssa.Value) : Constraint :=
  SubConstraint (NewArithmeticConstraint a b y token.SUB Interval_Sub).
Definition NewMulConstraint (a b y : ssa.Value) : Constraint :=
  MulConstraint (NewArithmeticConstraint a b y token.MUL Interval_Mul).

(* a method of the embedded struct, called through the wrapping value *)
Definition dispatch {C A : Type} (wrap : C -> Constraint) (m : Method C A)
    (c : C) : Graph -> Result A * (Constraint * Graph) :=
  fun g => let '(r, (c', g')) := m c g in (r, (wrap c', g')).

(* c.Eval(g) on an interface value c *)
Definition Eval : Method Constraint Range :=
  fun c =>
    match c with
    | AddConstraint a => dispatch AddConstraint ArithmeticConstraint.Eval a
    | SubConstraint a => dispatch SubConstraint ArithmeticConstraint.Eval a
    | MulConstraint a => dispatch MulConstraint ArithmeticConstraint.Eval a
    | IntConversion a => dispatch IntConversion IntConversionConstraint.Eval a
    | FutureIntersection a =>
        dispatch FutureIntersection FutureIntersectionConstraint.Eval a
    | Intersection a => dispatch Intersection IntersectionConstraint.Eval a
    | Leaf a => dispatch Leaf IntervalConstraint.Eval a
    end.

(** ** Well-formed values

    The three shapes of an extended integer and the three states of an
    interval that the data model allows. *)

(* NewZ(big.NewInt(n)) *)
Definition finite (n : int) : Z := NewZ (big.NewInt n).

Definition Z_valid (z : Z) : bool :=
  match integer z with
  | Some _ => infinity z =? 0
  | None => (infinity z =? 1) || (infinity z =? -1)
  end.

(* z1.Cmp(z2) returns, and not 1 *)
Definition Z_leb (z1 z2 : Z) : bool :=
  match Z_Cmp z1 z2 with
  | Ok c => negb (c =? 1)
  | Abort _ => false
  end.

Definition big_eqb (x y : big.Int) : bool :=
  match x, y with
  | Some a, Some b => a =? b
  | None, None => true
  | _, _ => false
  end.

Definition Z_eqb (z1 z2 : Z) : bool :=
  (infinity z1 =? infinity z2) && big_eqb (integer z1) (integer z2).

Definition Interval_eqb (i1 i2 : Interval) : bool :=
  Bool.eqb (known i1) (known i2)
  && Z_eqb (lower i1) (lower i2) && Z_eqb (upper i1) (upper i2).

(* known, with well-formed bounds, lower <= upper *)
Definition concrete (i : Interval) : bool :=
  known i && Z_valid (lower i) && Z_valid (upper i)
  && Z_leb (lower i) (upper i).

(* unknown (the zero value), empty (EmptyI) or concrete *)
Definition Interval_valid (i : Interval) : bool :=
  Interval_eqb i Interval_zero_value || Interval_eqb i EmptyI || concrete i.

(* the interval [a, b] of two finite bounds *)
Definition closed (a b : int) : Interval :=
  {| known := true; lower := finite a; upper := finite b |}.

(* one operand unknown and the other empty *)
Definition unknown_with_empty (i1 i2 : Interval) : bool :=
  (negb (known i1) && Empty i2) || (Empty i1 && negb (known i2)).

(* the constraints the three constructors build for a, b and y *)
Definition arithmetic_constraints (a b y : ssa.Value) : list Constraint :=
  [NewAddConstraint a b y; NewSubConstraint a b y; NewMulConstraint a b y].

(* a method that leaves its receiver and the graph as they were *)
Definition readonly {C A : Type} (m : Method C A) : Prop :=
  forall (c : C) (g : Graph), snd (m c g) = (c, g).

(** What resolution is to find for a future intersection.  [shift z k]
    is [z] plus the finite offset [k]; [dependency_interval] is the
    interval resolution reads for a dependency: its known entry in
    [ranges], or the whole range of its type when it has no entry. *)
Definition shift (z : Z) (k : int) : Z :=
  match integer z with
  | Some a => finite (a + k)
  | None => z
  end.

Definition dependency_interval (m : Ranges) (v : ssa.Value) : option Interval :=
  match Ranges_get m v with
  | Some (IntervalRange i) =>
      if known i && Z_valid (lower i) && Z_valid (upper i) then Some i
      else None
  | Some OtherRange => None
  | None =>
      match InfinityFor v with Ok i => Some i | Abort _ => None end
  end.

Definition expected_lower (c : FutureIntersectionConstraint.t) (k : int)
  : option Z :=
  match FutureIntersectionConstraint.lower c with
  | Some v =>
      option_map (fun i => shift (lower i) k)
        (dependency_interval (FutureIntersectionConstraint.ranges c) v)
  | None => Some NInfinity
  end.

Definition expected_upper (c : FutureIntersectionConstraint.t) (k : int)
  : option Z :=
  match FutureIntersectionConstraint.upper c with
  | Some v =>
      option_map (fun i => shift (upper i) k)
        (dependency_interval (FutureIntersectionConstraint.ranges c) v)
  | None => Some PInfinity
  end.

(** ** Inputs of the worked examples *)

(* a graph whose accessor reads a map, unknown where the map has no entry *)
Definition graph_of (m : Ranges) : Graph :=
  {| Graph_Range := fun v =>
       match Ranges_get m v with
       | Some r => r
       | None => IntervalRange Interval_zero_value
       end |}.

Definition value (n : nat) (k : types.BasicKind) : ssa.Value :=
  {| ssa.ident := n; ssa.Type_ := types.Basic k |}.

(* uint32(x) for x of type uint8 *)
Definition widen_uint8 : IntConversionConstraint.t :=
  {| IntConversionConstraint.y := value 1 types.Uint32;
     IntConversionConstraint.X := value 0 types.Uint8 |}.

(* x narrowed by an upper bound v - 1, where v has the range [0, 10] *)
Definition below_v : FutureIntersectionConstraint.t :=
  {| FutureIntersectionConstraint.y := value 2 types.Int;
     FutureIntersectionConstraint.ranges :=
       [(value 1 types.Int, IntervalRange (closed 0 10))];
     FutureIntersectionConstraint.X := value 0 types.Int;
     FutureIntersectionConstraint.lower := None;
     FutureIntersectionConstraint.lowerOffset := finite 0;
     FutureIntersectionConstraint.upper := Some (value 1 types.Int);
     FutureIntersectionConstraint.upperOffset := finite (-1);
     FutureIntersectionConstraint.I := Interval_zero_value;
     FutureIntersectionConstraint.resolved := false |}.

(* x narrowed by a lower bound v + 0, where v has the range [0, 10] *)
Definition above_v : FutureIntersectionConstraint.t :=
  {| FutureIntersectionConstraint.y := value 2 types.Int;
     FutureIntersectionConstraint.ranges :=
       [(value 1 types.Int, IntervalRange (closed 0 10))];
     FutureIntersectionConstraint.X := value 0 types.Int;
     FutureIntersectionConstraint.lower := Some (value 1 types.Int);
     FutureIntersectionConstraint.lowerOffset := finite 0;
     FutureIntersectionConstraint.upper := None;
     FutureIntersectionConstraint.upperOffset := finite 0;
     FutureIntersectionConstraint.I := Interval_zero_value;
     FutureIntersectionConstraint.resolved := false |}.

(** ** The slice type [Zs] and its sort interface

    A slice is the list of its elements.  An index expression panics
    ("index out of range") outside the slice: that panic is [None], as
    distinct from the results in which the comparison itself returns or
    panics.  [Swap] writes the elements of the slice in place; here it
    returns the elements the slice holds afterwards. *)

Definition Zs : Type := list Z.

Definition Zs_Len (zs : Zs) : int := Z.of_nat (length zs).

(* zs[i] *)
Definition Zs_index (zs : Zs) (i : int) : option Z :=
  if i <? 0 then None else nth_error zs (Z.to_nat i).

(* zs[n] = z, for an index in range *)
Fixpoint Zs_store (zs : Zs) (n : nat) (z : Z) : Zs :=
  match zs, n with
  | [], _ => []
  | _ :: zs', O => z :: zs'
  | z0 :: zs', S n' => z0 :: Zs_store zs' n' z
  end.

Definition Zs_Less (zs : Zs) (i j : int) : option (Result bool) :=
  match Zs_index zs i, Zs_index zs j with
  | Some a, Some b => Some (c <- Z_Cmp a b ;; Ok (c =? -1))
  | _, _ => None
  end.

(* zs[i], zs[j] = zs[j], zs[i] *)
Definition Zs_Swap (zs : Zs) (i j : int) : option Zs :=
  match Zs_index zs j, Zs_index zs i with
  | Some b, Some a =>
      Some (Zs_store (Zs_store zs (Z.to_nat i) b) (Z.to_nat j) a)
  | _, _ => None
  end.

(** ** Textual form

    Strings are sequences of bytes; the two signs that are not ASCII are
    written out in their UTF-8 encoding. *)

(* U+221E, the infinity sign *)
Definition infinity_sign : string :=
  String (ascii_of_nat 226)
    (String (ascii_of_nat 136) (String (ascii_of_nat 158) EmptyString)).

(* U+22A5, the bottom sign *)
Definition bottom_sign : string :=
  String (ascii_of_nat 226)
    (String (ascii_of_nat 138) (String (ascii_of_nat 165) EmptyString)).

(* fmt.Sprintf("%d", x) for a pointer x to a big.Int *)
Definition Sprintf_d (x : big.Int) : string :=
  match x with
  | Some n => NilZero.string_of_int (Z.to_int n)
  | None => "<nil>"%string
  end.

Definition Z_String (z1 : Z) : string :=
  if eq_NInfinity z1 then ("-" ++ infinity_sign)%string
  else if eq_PInfinity z1 then infinity_sign
  else Sprintf_d (integer z1).

Definition Interval_String (i1 : Interval) : string :=
  if negb (IsKnown i1) then
    ("[" ++ bottom_sign ++ ", " ++ bottom_sign ++ "]")%string
  else if Empty i1 then "{}"%string
  else ("[" ++ Z_String (lower i1) ++ ", " ++ Z_String (upper i1) ++ "]")%string.

(** ** Vocabulary of the further properties *)

(* a positive and a negative infinity *)
Definition opposite_infinities (z1 z2 : Z) : bool :=
  infinity z1 * infinity z2 =? -1.

(* the finite value x lies in the known interval i *)
Definition contains (i : Interval) (x : int) : bool :=
  known i && Z_leb (lower i) (finite x) && Z_leb (finite x) (upper i).

(* concrete, with a lower bound below positive infinity and an upper bound
   above negative infinity: an interval some finite value can lie in *)
Definition proper (i : Interval) : bool :=
  concrete i && negb (eq_PInfinity (lower i)) && negb (eq_NInfinity (upper i)).

(* c.Operands() on an interface value c *)
Definition Operands (c : Constraint) : list ssa.Value :=
  match c with
  | AddConstraint a | SubConstraint a | MulConstraint a =>
      ArithmeticConstraint.Operands a
  | IntConversion a => IntConversionConstraint.Operands a
  | FutureIntersection a => FutureIntersectionConstraint.Operands a
  | Intersection a => IntersectionConstraint.Operands a
  | Leaf a => IntervalConstraint.Operands a
  end.

(* the values Eval asks the graph about: the operands and, for a
   conversion, its own target *)
Definition Eval_reads (c : Constraint) : list ssa.Value :=
  Operands c
  ++ match c with
     | IntConversion a => [IntConversionConstraint.y a]
     | _ => []
     end.

(* the same constraint over another map of ranges *)
Definition set_ranges (m : Ranges) (c : FutureIntersectionConstraint.t)
  : FutureIntersectionConstraint.t :=
  {| FutureIntersectionConstraint.y := FutureIntersectionConstraint.y c;
     FutureIntersectionConstraint.ranges := m;
     FutureIntersectionConstraint.X := FutureIntersectionConstraint.X c;
     FutureIntersectionConstraint.lower := FutureIntersectionConstraint.lower c;
     FutureIntersectionConstraint.lowerOffset :=
       FutureIntersectionConstraint.lowerOffset c;
     FutureIntersectionConstraint.upper := FutureIntersectionConstraint.upper c;
     FutureIntersectionConstraint.upperOffset :=
       FutureIntersectionConstraint.upperOffset c;
     FutureIntersectionConstraint.I := FutureIntersectionConstraint.I c;
     FutureIntersectionConstraint.resolved :=
       FutureIntersectionConstraint.resolved c |}.

(* the interval Resolve assigns, as a function of the fields it reads *)
Definition resolved_bound (c : FutureIntersectionConstraint.t)
  : Result Interval :=
  l <- match FutureIntersectionConstraint.lower c with
       | Some v =>
           li <- FutureIntersectionConstraint.range_or_infinity
                   (FutureIntersectionConstraint.ranges c) v ;;
           i <- assert_Interval li ;;
           Z_Add (lower i) (FutureIntersectionConstraint.lowerOffset c)
       | None => Ok NInfinity
       end ;;
  u <- match FutureIntersectionConstraint.upper c with
       | Some v =>
           ui <- FutureIntersectionConstraint.range_or_infinity
                   (FutureIntersectionConstraint.ranges c) v ;;
           i <- assert_Interval ui ;;
           Z_Add (upper i) (FutureIntersectionConstraint.upperOffset c)
       | None => Ok PInfinity
       end ;;
  NewInterval l u.

(* the type of v is an unsigned basic type *)
Definition is_unsigned (v : ssa.Value) : bool :=
  match ssa.Type_ v with
  | types.Basic b => types.IsUnsigned b
  | types.NotBasic => false
  end.

(* a method that only reads, and returns the same over the graphs g and g' *)
Definition same_result {C A : Type} (g g' : Graph) (c : C) (m : Method C A)
  : Prop :=
  fst (m c g) = fst (m c g')
  /\ snd (m c g) = (c, g) /\ snd (m c g') = (c, g').

(** * Properties *)

(** ** Extended integers *)

Inductive Z_shape : Z -> Prop :=
| shape_finite (n : int) : Z_shape (finite n)
| shape_PInfinity : Z_shape PInfinity
| shape_NInfinity : Z_shape NInfinity.

Lemma Z_valid_shape (z : Z) : Z_valid z = true -> Z_shape z.
Proof.
  destruct z as [i [n|]]; unfold Z_valid; cbn; intro H.
  - apply Z.eqb_eq in H; subst i. apply (shape_finite n).
  - apply orb_true_iff in H. destruct H as [H|H]; apply Z.eqb_eq in H; subst i.
    + exact shape_PInfinity.
    + exact shape_NInfinity.
Qed.

Lemma Z_shape_valid (z : Z) : Z_shape z -> Z_valid z = true.
Proof. destruct 1; reflexivity. Qed.

Lemma Negate_of_negative (z n : Z) :
  Z_Sign z = Ok (-1) -> Z_Negate z = Ok n -> Z_Sign n = Ok 1.
Proof.
  destruct z as [i p]; unfold Z_Sign, Z_Negate; cbn.
  destruct (Z.eqb_spec i 0) as [->|Hi]; cbn.
  - destruct p as [a|]; cbn; [|discriminate].
    intros Hs Hn. injection Hs as Hs. injection Hn as <-. cbn.
    f_equal. lia.
  - intros Hs. injection Hs as ->. cbn. intros Hn. injection Hn as <-.
    reflexivity.
Qed.

Lemma Add_depth_nonneg (d : nat) (z1 z2 : Z) :
  Z_Sign z2 <> Ok (-1) -> Add_depth (S d) z1 z2 = Add_depth 1 z1 z2.
Proof.
  intro H. cbn. destruct (Z_Sign z2) as [s|p]; cbn; [|reflexivity].
  destruct (Z.eqb_spec s (-1)) as [->|_]; [congruence|reflexivity].
Qed.

Lemma Sub_depth_nonneg (d : nat) (z1 z2 : Z) :
  Z_Sign z2 <> Ok (-1) -> Sub_depth (S d) z1 z2 = Sub_depth 1 z1 z2.
Proof.
  intro H. cbn. destruct (Z_Sign z2) as [s|p]; cbn; [|reflexivity].
  destruct (Z.eqb_spec s (-1)) as [->|_]; [congruence|reflexivity].
Qed.

(** Two frames are all [Add] and [Sub] use: with any larger allowance
    they return what [Z_Add] and [Z_Sub] return. *)
Lemma Add_depth_enough (d : nat) (z1 z2 : Z) :
  Add_depth (2 + d) z1 z2 = Z_Add z1 z2.
Proof.
  unfold Z_Add. change (2 + d)%nat with (S (S d)).
  cbn [Add_depth]. destruct (Z_Sign z2) as [s|p] eqn:Hs; cbn [bind]; [|reflexivity].
  destruct (Z.eqb_spec s (-1)) as [->|_]; [|reflexivity].
  destruct (Z_Negate z2) as [n|p] eqn:Hn; cbn [bind]; [|reflexivity].
  pose proof (Negate_of_negative _ _ Hs Hn) as Hp.
  rewrite !Sub_depth_nonneg with (d := d) by (rewrite Hp; discriminate).
  reflexivity.
Qed.

Lemma Sub_depth_enough (d : nat) (z1 z2 : Z) :
  Sub_depth (2 + d) z1 z2 = Z_Sub z1 z2.
Proof.
  unfold Z_Sub. change (2 + d)%nat with (S (S d)).
  cbn [Sub_depth]. destruct (Z_Sign z2) as [s|p] eqn:Hs; cbn [bind]; [|reflexivity].
  destruct (Z.eqb_spec s (-1)) as [->|_]; [|reflexivity].
  destruct (Z_Negate z2) as [n|p] eqn:Hn; cbn [bind]; [|reflexivity].
  pose proof (Negate_of_negative _ _ Hs Hn) as Hp.
  rewrite !Add_depth_nonneg with (d := d) by (rewrite Hp; discriminate).
  reflexivity.
Qed.

Lemma Add_Sub_never_overflow (z1 z2 : Z) :
  Z_Add z1 z2 <> Abort StackOverflow /\ Z_Sub z1 z2 <> Abort StackOverflow.
Proof.
  assert (Hone : forall a b, Z_Sign b <> Ok (-1) ->
            Add_depth 1 a b <> Abort StackOverflow
            /\ Sub_depth 1 a b <> Abort StackOverflow).
  { intros a b Hb. cbn. destruct (Z_Sign b) as [s|p] eqn:Hs; cbn.
    - destruct (Z.eqb_spec s (-1)) as [->|_]; [congruence|].
      destruct a as [ia [na|]], b as [ib [nb|]];
        unfold eq_NInfinity, eq_PInfinity, Infinite; cbn;
        repeat match goal with
               | |- context [?x =? ?y] => destruct (Z.eqb_spec x y); cbn
               end; split; discriminate.
    - unfold Z_Sign in Hs. destruct (negb (infinity b =? 0)); [discriminate|].
      destruct (integer b); cbn in Hs; [discriminate|].
      injection Hs as <-. split; discriminate. }
  unfold Z_Add, Z_Sub. cbn [Add_depth Sub_depth].
  destruct (Z_Sign z2) as [s|p] eqn:Hs; cbn [bind].
  - destruct (Z.eqb_spec s (-1)) as [->|Hne].
    + destruct (Z_Negate z2) as [n|p] eqn:Hn; cbn [bind].
      * pose proof (Negate_of_negative _ _ Hs Hn) as Hp.
        destruct (Hone z1 n) as [Ha Hb]; [rewrite Hp; discriminate|].
        split; assumption.
      * unfold Z_Negate in Hn.
        destruct (infinity z2 =? 1); [discriminate|].
        destruct (infinity z2 =? -1); [discriminate|].
        destruct (integer z2); cbn in Hn; [discriminate|].
        injection Hn as <-. split; discriminate.
    + destruct (Hone z1 z2) as [Ha Hb].
      { rewrite Hs. intro E. injection E as E. contradiction. }
      cbn in Ha, Hb. rewrite Hs in Ha, Hb. cbn in Ha, Hb.
      destruct (s =? -1) eqn:E; [apply Z.eqb_eq in E; contradiction|].
      split; assumption.
  - unfold Z_Sign in Hs. destruct (negb (infinity z2 =? 0)); [discriminate|].
    destruct (integer z2); cbn in Hs; [discriminate|].
    injection Hs as <-. split; discriminate.
Qed.

(** *** Addition and subtraction of infinities *)

Lemma PInfinity_Add_finite (k : int) : Z_Add PInfinity (finite k) = Ok PInfinity.
Proof.
  unfold Z_Add. cbn. destruct (Z.eqb_spec (Z.sgn k) (-1)); cbn; [|reflexivity].
  destruct (Z.eqb_spec (Z.sgn (- k)) (-1)); [lia|reflexivity].
Qed.

Lemma PInfinity_Add_NInfinity_aborts :
  Z_Add PInfinity NInfinity = Abort SubNotDefined.
Proof. reflexivity. Qed.

Lemma PInfinity_Sub_PInfinity_aborts :
  Z_Sub PInfinity PInfinity = Abort SubNotDefined.
Proof. reflexivity. Qed.

(** Claim C1.  Adding a finite value to positive infinity gives positive
    infinity, and positive infinity plus negative infinity, like positive
    infinity minus itself, panics ([PInfinity_Add_finite],
    [PInfinity_Add_NInfinity_aborts], [PInfinity_Sub_PInfinity_aborts]).
    The other two mixed combinations do not panic: [NInfinity.Add(PInfinity)]
    returns [NInfinity], because [Add] tests [z1 == NInfinity] before it
    looks at [z2], and [NInfinity.Sub(NInfinity)] negates its operand and
    reaches the same return. *)
Theorem Add_NInfinity_PInfinity_returns :
  Z_Add NInfinity PInfinity = Ok NInfinity
  /\ Z_Sub NInfinity NInfinity = Ok NInfinity.
Proof. split; reflexivity. Qed.

(** *** Multiplication *)

(** Claim C7.  When either operand of [Mul] is the finite value zero the
    product is zero, whatever the other operand is, an infinity included:
    the zero test comes before the rule for infinities. *)
Theorem Mul_zero_absorbs (z1 z2 : Z) :
  z1 = finite 0 \/ z2 = finite 0 -> Z_Mul z1 z2 = Ok (finite 0).
Proof.
  intros [-> | ->]; unfold Z_Mul; cbn.
  - reflexivity.
  - rewrite orb_true_r. reflexivity.
Qed.

Lemma Mul_zero_absorbs_witness :
  Z_Mul (finite 0) PInfinity = Ok (finite 0)
  /\ Z_Mul NInfinity (finite 0) = Ok (finite 0).
Proof.
  split.
  - apply (Mul_zero_absorbs (finite 0) PInfinity). left. reflexivity.
  - apply (Mul_zero_absorbs NInfinity (finite 0)). right. reflexivity.
Defined.

(** *** Comparison *)

Lemma of_comparison_antisym (a b : int) :
  big.of_comparison (a ?= b) = 1 -> big.of_comparison (b ?= a) = -1.
Proof.
  rewrite (Z.compare_antisym a b).
  destruct (a ?= b); cbn; intro H; try discriminate; reflexivity.
Qed.

(** If [l.Cmp(u)] returns 1 then [u.Cmp(l)] returns -1.  This holds of
    every pair of struct values, well-formed or not. *)
Lemma Cmp_greater_flip (l u : Z) :
  Z_Cmp l u = Ok 1 -> Z_Cmp u l = Ok (-1).
Proof.
  destruct l as [il pl], u as [iu pu].
  unfold Z_Cmp, eq_PInfinity, eq_NInfinity; cbn.
  destruct pl as [a|], pu as [b|]; cbn;
    repeat match goal with
           | |- context [?x =? ?y] => destruct (Z.eqb_spec x y); cbn
           end;
    intro H; try discriminate; try lia; try reflexivity.
  all: injection H as H; f_equal; apply of_comparison_antisym; assumption.
Qed.

(** ** Intervals *)

(** Claim C8.  Whenever [l.Cmp(u)] is 1, [NewInterval(l, u)] is the
    canonical empty interval: known, lower bound positive infinity, upper
    bound negative infinity. *)
Theorem NewInterval_crossed_is_empty (l u : Z) :
  Z_Cmp l u = Ok 1 ->
  NewInterval l u = Ok EmptyI
  /\ EmptyI = {| known := true; lower := PInfinity; upper := NInfinity |}.
Proof.
  intro H. split; [|reflexivity].
  unfold NewInterval. rewrite (Cmp_greater_flip _ _ H). reflexivity.
Qed.

Lemma NewInterval_crossed_is_empty_witness :
  NewInterval (finite 7) (finite 3) = Ok EmptyI
  /\ EmptyI = {| known := true; lower := PInfinity; upper := NInfinity |}.
Proof.
  apply (NewInterval_crossed_is_empty (finite 7) (finite 3)). reflexivity.
Defined.

(** *** The order on well-formed extended integers *)

Ltac by_shape :=
  repeat match goal with
         | H : Z_shape _ |- _ => destruct H
         end;
  unfold Z_leb, Z_Cmp, eq_PInfinity, eq_NInfinity in *; cbn in *;
  repeat match goal with
         | |- context [?a ?= ?b] => destruct (Z.compare_spec a b); cbn in *
         | H : context [?a ?= ?b] |- _ =>
             destruct (Z.compare_spec a b); cbn in *
         end;
  subst; try reflexivity; try discriminate; try lia.

Lemma Cmp_of_leb (a b : Z) :
  Z_shape a -> Z_shape b ->
  Z_Cmp a b = Ok (if Z_leb a b then (if Z_leb b a then 0 else -1) else 1).
Proof. intros Ha Hb. by_shape. Qed.

Lemma Z_leb_refl (a : Z) : Z_shape a -> Z_leb a a = true.
Proof. intros Ha. by_shape. Qed.

Lemma Z_leb_total (a b : Z) :
  Z_shape a -> Z_shape b -> Z_leb a b = false -> Z_leb b a = true.
Proof. intros Ha Hb. by_shape. Qed.

Lemma Z_leb_trans (a b c : Z) :
  Z_shape a -> Z_shape b -> Z_shape c ->
  Z_leb a b = true -> Z_leb b c = true -> Z_leb a c = true.
Proof. intros Ha Hb Hc. by_shape. Qed.

Lemma Z_leb_antisym (a b : Z) :
  Z_shape a -> Z_shape b ->
  Z_leb a b = true -> Z_leb b a = true -> a = b.
Proof. intros Ha Hb. by_shape. Qed.

Lemma Z_leb_NInfinity (a : Z) : Z_shape a -> Z_leb NInfinity a = true.
Proof. intros Ha. by_shape. Qed.

Lemma Z_leb_PInfinity (a : Z) : Z_shape a -> Z_leb a PInfinity = true.
Proof. intros Ha. by_shape. Qed.

(** *** Max and Min *)

Lemma Max_loop_spec (zs : list Z) : forall ret : Z,
  Z_shape ret -> Forall Z_shape zs ->
  exists m, Max_loop ret zs = Ok m /\ Z_shape m /\ In m (ret :: zs)
            /\ Forall (fun z => Z_leb z m = true) (ret :: zs).
Proof.
  induction zs as [|z zs IH]; intros ret Hret Hzs.
  - exists ret. cbn. repeat split; auto.
    constructor; [apply Z_leb_refl; assumption | constructor].
  - inversion Hzs as [|? ? Hz Hzs']; subst. cbn [Max_loop].
    rewrite (Cmp_of_leb z ret Hz Hret). cbn [bind].
    destruct (Z_leb z ret) eqn:Hle.
    + assert (E : ((if Z_leb ret z then 0 else -1) =? 1) = false)
        by (destruct (Z_leb ret z); reflexivity).
      rewrite E. destruct (IH ret Hret Hzs') as (m & Hm & Hsm & Hin & Hall).
      exists m. split; [assumption|]. split; [assumption|].
      inversion Hall as [|? ? Hrm Hall']; subst. split.
      * destruct Hin as [<-|Hin]; [left; reflexivity | right; right; assumption].
      * constructor; [assumption|]. constructor; [|assumption].
        apply (Z_leb_trans z ret m); assumption.
    + cbn. destruct (IH z Hz Hzs') as (m & Hm & Hsm & Hin & Hall).
      exists m. split; [assumption|]. split; [assumption|].
      inversion Hall as [|? ? Hzm Hall']; subst. split.
      * destruct Hin as [<-|Hin]; [right; left; reflexivity | right; right; assumption].
      * constructor; [|constructor; assumption].
        apply (Z_leb_trans ret z m); try assumption.
        apply Z_leb_total; assumption.
Qed.

Lemma Min_loop_spec (zs : list Z) : forall ret : Z,
  Z_shape ret -> Forall Z_shape zs ->
  exists m, Min_loop ret zs = Ok m /\ Z_shape m /\ In m (ret :: zs)
            /\ Forall (fun z => Z_leb m z = true) (ret :: zs).
Proof.
  induction zs as [|z zs IH]; intros ret Hret Hzs.
  - exists ret. cbn. repeat split; auto.
    constructor; [apply Z_leb_refl; assumption | constructor].
  - inversion Hzs as [|? ? Hz Hzs']; subst. cbn [Min_loop].
    rewrite (Cmp_of_leb z ret Hz Hret). cbn [bind].
    destruct (Z_leb z ret) eqn:Hle.
    + destruct (Z_leb ret z) eqn:Hge; cbn.
      * destruct (IH ret Hret Hzs') as (m & Hm & Hsm & Hin & Hall).
        exists m. split; [assumption|]. split; [assumption|].
        inversion Hall as [|? ? Hrm Hall']; subst. split.
        -- destruct Hin as [<-|Hin]; [left; reflexivity | right; right; assumption].
        -- constructor; [assumption|]. constructor; [|assumption].
           apply (Z_leb_trans m ret z); assumption.
      * destruct (IH z Hz Hzs') as (m & Hm & Hsm & Hin & Hall).
        exists m. split; [assumption|]. split; [assumption|].
        inversion Hall as [|? ? Hzm Hall']; subst. split.
        -- destruct Hin as [<-|Hin]; [right; left; reflexivity | right; right; assumption].
        -- constructor; [|constructor; assumption].
           apply (Z_leb_trans m z ret); assumption.
    + cbn. destruct (IH ret Hret Hzs') as (m & Hm & Hsm & Hin & Hall).
      exists m. split; [assumption|]. split; [assumption|].
      inversion Hall as [|? ? Hrm Hall']; subst. split.
      * destruct Hin as [<-|Hin]; [left; reflexivity | right; right; assumption].
      * constructor; [assumption|]. constructor; [|assumption].
        apply (Z_leb_trans m ret z); try assumption.
        apply Z_leb_total; assumption.
Qed.

Lemma Max_spec (zs : list Z) :
  zs <> [] -> Forall Z_shape zs ->
  exists m, Max zs = Ok m /\ Z_shape m /\ In m zs
            /\ Forall (fun z => Z_leb z m = true) zs.
Proof.
  destruct zs as [|z zs]; [congruence|]. intros _ H.
  inversion H as [|? ? Hz Hzs]; subst.
  destruct (Max_loop_spec zs z Hz Hzs) as (m & Hm & Hrest).
  exists m. split; [|assumption].
  destruct zs; [cbn in Hm |- *; assumption | exact Hm].
Qed.

Lemma Min_spec (zs : list Z) :
  zs <> [] -> Forall Z_shape zs ->
  exists m, Min zs = Ok m /\ Z_shape m /\ In m zs
            /\ Forall (fun z => Z_leb m z = true) zs.
Proof.
  destruct zs as [|z zs]; [congruence|]. intros _ H.
  inversion H as [|? ? Hz Hzs]; subst.
  destruct (Min_loop_spec zs z Hz Hzs) as (m & Hm & Hrest).
  exists m. split; [|assumption].
  destruct zs; [cbn in Hm |- *; assumption | exact Hm].
Qed.

Lemma Max_pair (a b : Z) :
  Z_shape a -> Z_shape b -> Max [a; b] = Ok (if Z_leb b a then a else b).
Proof. intros Ha Hb. cbn. by_shape. Qed.

Lemma Min_pair (a b : Z) :
  Z_shape a -> Z_shape b -> Min [a; b] = Ok (if Z_leb a b then a else b).
Proof. intros Ha Hb. cbn. by_shape. Qed.

Lemma NewInterval_valid (l u : Z) :
  Z_shape l -> Z_shape u ->
  NewInterval l u =
  Ok (if Z_leb l u then {| known := true; lower := l; upper := u |}
      else EmptyI).
Proof. intros Hl Hu. unfold NewInterval. by_shape. Qed.

(** *** The three states of an interval *)

Inductive Interval_state : Interval -> Prop :=
| state_unknown : Interval_state Interval_zero_value
| state_empty : Interval_state EmptyI
| state_concrete (l u : Z) :
    Z_shape l -> Z_shape u -> Z_leb l u = true ->
    Interval_state {| known := true; lower := l; upper := u |}.

Lemma big_eqb_eq (x y : big.Int) : big_eqb x y = true -> x = y.
Proof.
  destruct x, y; cbn; intro H; try discriminate; [|reflexivity].
  apply Z.eqb_eq in H. congruence.
Qed.

Lemma Z_eqb_eq (a b : Z) : Z_eqb a b = true -> a = b.
Proof.
  destruct a, b; unfold Z_eqb; cbn. intro H.
  apply andb_true_iff in H. destruct H as [H1 H2].
  apply Z.eqb_eq in H1. apply big_eqb_eq in H2. congruence.
Qed.

Lemma Interval_eqb_eq (i j : Interval) : Interval_eqb i j = true -> i = j.
Proof.
  destruct i, j; unfold Interval_eqb; cbn. intro H.
  apply andb_true_iff in H. destruct H as [H H3].
  apply andb_true_iff in H. destruct H as [H1 H2].
  apply Bool.eqb_prop in H1. apply Z_eqb_eq in H2. apply Z_eqb_eq in H3.
  congruence.
Qed.

Lemma Interval_valid_state (i : Interval) :
  Interval_valid i = true -> Interval_state i.
Proof.
  unfold Interval_valid. intro H.
  apply orb_true_iff in H. destruct H as [H|H].
  - apply orb_true_iff in H. destruct H as [H|H];
      apply Interval_eqb_eq in H; subst; constructor.
  - unfold concrete in H. destruct i as [k l u]. cbn in H.
    repeat (apply andb_true_iff in H; destruct H as [H ?]). subst k.
    constructor; auto using Z_valid_shape.
Qed.

Lemma concrete_not_Empty (l u : Z) :
  Z_leb l u = true ->
  Empty {| known := true; lower := l; upper := u |} = false.
Proof.
  intro H. unfold Empty; cbn.
  destruct (eq_PInfinity l) eqn:Hl; [|reflexivity].
  destruct (eq_NInfinity u) eqn:Hu; [|reflexivity].
  exfalso. destruct l as [il [a|]], u as [iu [b|]];
    unfold eq_PInfinity, eq_NInfinity in *; cbn in *;
    try (rewrite andb_false_r in *; discriminate).
  rewrite andb_true_r in *. apply Z.eqb_eq in Hl, Hu. subst.
  discriminate.
Qed.

Lemma max_commutes (a b : Z) :
  Z_shape a -> Z_shape b ->
  (if Z_leb b a then a else b) = (if Z_leb a b then b else a).
Proof. intros Ha Hb. by_shape. Qed.

Lemma min_commutes (a b : Z) :
  Z_shape a -> Z_shape b ->
  (if Z_leb a b then a else b) = (if Z_leb b a then b else a).
Proof. intros Ha Hb. by_shape. Qed.

Lemma if_shape (c : bool) (a b : Z) :
  Z_shape a -> Z_shape b -> Z_shape (if c then a else b).
Proof. destruct c; auto. Qed.

(** Meet of two concrete intervals: the larger lower bound, the smaller
    upper bound, and empty if they cross. *)
Lemma Intersection_concrete (l1 u1 l2 u2 : Z) :
  Z_shape l1 -> Z_shape u1 -> Z_shape l2 -> Z_shape u2 ->
  Z_leb l1 u1 = true -> Z_leb l2 u2 = true ->
  Interval_Intersection {| known := true; lower := l1; upper := u1 |}
                        {| known := true; lower := l2; upper := u2 |} =
  let lo := if Z_leb l2 l1 then l1 else l2 in
  let hi := if Z_leb u1 u2 then u1 else u2 in
  Ok (if Z_leb lo hi then {| known := true; lower := lo; upper := hi |}
      else EmptyI).
Proof.
  intros Hl1 Hu1 Hl2 Hu2 H1 H2. unfold Interval_Intersection.
  rewrite (concrete_not_Empty _ _ H1), (concrete_not_Empty _ _ H2).
  cbn [known lower upper IsKnown negb orb].
  rewrite (Max_pair _ _ Hl1 Hl2), (Min_pair _ _ Hu1 Hu2). cbn [bind].
  set (lo := if Z_leb l2 l1 then l1 else l2).
  set (hi := if Z_leb u1 u2 then u1 else u2).
  assert (Hlo : Z_shape lo) by (apply if_shape; assumption).
  assert (Hhi : Z_shape hi) by (apply if_shape; assumption).
  rewrite (NewInterval_valid _ _ Hlo Hhi). cbn [bind].
  destruct (Z_leb lo hi) eqn:Hle; cbn [lower upper].
  - rewrite (Cmp_of_leb _ _ Hlo Hhi), Hle. cbn [bind].
    destruct (Z_leb hi lo); reflexivity.
  - reflexivity.
Qed.

Lemma Union_concrete (l1 u1 l2 u2 : Z) :
  Z_shape l1 -> Z_shape u1 -> Z_shape l2 -> Z_shape u2 ->
  Z_leb l1 u1 = true -> Z_leb l2 u2 = true ->
  Interval_Union {| known := true; lower := l1; upper := u1 |}
                 (IntervalRange {| known := true; lower := l2; upper := u2 |}) =
  let lo := if Z_leb l1 l2 then l1 else l2 in
  let hi := if Z_leb u2 u1 then u1 else u2 in
  Ok (IntervalRange
        (if Z_leb lo hi then {| known := true; lower := lo; upper := hi |}
         else EmptyI)).
Proof.
  intros Hl1 Hu1 Hl2 Hu2 H1 H2. unfold Interval_Union.
  rewrite (concrete_not_Empty _ _ H1), (concrete_not_Empty _ _ H2).
  cbn [known lower upper IsKnown negb orb].
  rewrite (Min_pair _ _ Hl1 Hl2), (Max_pair _ _ Hu1 Hu2). cbn [bind].
  rewrite NewInterval_valid by (apply if_shape; assumption).
  reflexivity.
Qed.

(** *** Lattice laws *)

Ltac mixed_states :=
  unfold Interval_Intersection, Interval_Union, unknown_with_empty, IsKnown;
  repeat rewrite concrete_not_Empty by assumption;
  cbn.

Lemma Intersection_commutes (i1 i2 : Interval) :
  Interval_state i1 -> Interval_state i2 ->
  exists i, Interval_Intersection i1 i2 = Ok i
            /\ Interval_Intersection i2 i1 = Ok i.
Proof.
  intros [| |l1 u1 Hl1 Hu1 H1] [| |l2 u2 Hl2 Hu2 H2];
    try (eexists; split; mixed_states; reflexivity).
  rewrite !Intersection_concrete by assumption. cbn zeta.
  rewrite (max_commutes l1 l2 Hl1 Hl2), (min_commutes u1 u2 Hu1 Hu2).
  eexists; split; reflexivity.
Qed.

Lemma Intersection_idempotent (i : Interval) :
  Interval_state i -> Interval_Intersection i i = Ok i.
Proof.
  intros [| |l u Hl Hu H]; try reflexivity.
  rewrite Intersection_concrete by assumption. cbn zeta.
  rewrite (Z_leb_refl l Hl), (Z_leb_refl u Hu), H. reflexivity.
Qed.

Lemma Union_commutes (i1 i2 : Interval) :
  Interval_state i1 -> Interval_state i2 ->
  exists r, Interval_Union i1 (IntervalRange i2) = Ok r
            /\ (unknown_with_empty i1 i2 = false ->
                Interval_Union i2 (IntervalRange i1) = Ok r)
            /\ (unknown_with_empty i1 i2 = true -> r = IntervalRange i2).
Proof.
  intros [| |l1 u1 Hl1 Hu1 H1] [| |l2 u2 Hl2 Hu2 H2];
    try (eexists; split; [mixed_states; reflexivity|];
         split; mixed_states; intro; try discriminate; reflexivity).
  rewrite !Union_concrete by assumption. cbn zeta.
  rewrite (min_commutes l1 l2 Hl1 Hl2), (max_commutes u1 u2 Hu1 Hu2).
  eexists; split; [reflexivity|]. split; [reflexivity|].
  unfold unknown_with_empty. rewrite !concrete_not_Empty by assumption.
  cbn. discriminate.
Qed.

(** Claim C4, as the code has it.  On intervals in one of their three
    states, [Intersection] is commutative and [i.Intersection(i)] is [i];
    [Union] is commutative except on an unknown and an empty operand,
    where it returns its second operand. *)
Theorem Intersection_Union_laws (i1 i2 : Interval) :
  Interval_valid i1 = true -> Interval_valid i2 = true ->
  (exists i, Interval_Intersection i1 i2 = Ok i
             /\ Interval_Intersection i2 i1 = Ok i)
  /\ Interval_Intersection i1 i1 = Ok i1
  /\ (exists r, Interval_Union i1 (IntervalRange i2) = Ok r
                /\ (unknown_with_empty i1 i2 = false ->
                    Interval_Union i2 (IntervalRange i1) = Ok r)
                /\ (unknown_with_empty i1 i2 = true -> r = IntervalRange i2)).
Proof.
  intros H1 H2.
  apply Interval_valid_state in H1. apply Interval_valid_state in H2.
  split; [apply Intersection_commutes; assumption|].
  split; [apply Intersection_idempotent; assumption|].
  apply Union_commutes; assumption.
Qed.

Lemma Intersection_Union_laws_witness :
  (exists i, Interval_Intersection (closed 0 10) (closed 5 20) = Ok i
             /\ Interval_Intersection (closed 5 20) (closed 0 10) = Ok i)
  /\ Interval_Intersection (closed 0 10) (closed 0 10) = Ok (closed 0 10)
  /\ (exists r, Interval_Union (closed 0 10) (IntervalRange (closed 5 20)) = Ok r
                /\ (unknown_with_empty (closed 0 10) (closed 5 20) = false ->
                    Interval_Union (closed 5 20) (IntervalRange (closed 0 10))
                    = Ok r)
                /\ (unknown_with_empty (closed 0 10) (closed 5 20) = true ->
                    r = IntervalRange (closed 5 20))).
Proof.
  apply (Intersection_Union_laws (closed 0 10) (closed 5 20)); reflexivity.
Defined.

(** [Union] of an unknown and an empty interval depends on the order of
    its operands. *)
Lemma Union_unknown_empty_not_commutative :
  Interval_valid Interval_zero_value = true
  /\ Interval_valid EmptyI = true
  /\ Interval_Union Interval_zero_value (IntervalRange EmptyI)
     = Ok (IntervalRange EmptyI)
  /\ Interval_Union EmptyI (IntervalRange Interval_zero_value)
     = Ok (IntervalRange Interval_zero_value)
  /\ Interval_Union Interval_zero_value (IntervalRange EmptyI)
     <> Interval_Union EmptyI (IntervalRange Interval_zero_value).
Proof. repeat split; try reflexivity. cbn. discriminate. Qed.

(** *** Interval multiplication *)

Lemma Mul_shape (a b : Z) :
  Z_shape a -> Z_shape b -> exists p, Z_Mul a b = Ok p /\ Z_shape p.
Proof.
  intros Ha Hb. destruct Ha as [a| |], Hb as [b| |]; unfold Z_Mul; cbn.
  - destruct ((Z.sgn a =? 0) || (Z.sgn b =? 0)); eexists; split;
      try reflexivity; constructor.
  - destruct a as [|a|a]; cbn; eexists; split; try reflexivity; constructor.
  - destruct a as [|a|a]; cbn; eexists; split; try reflexivity; constructor.
  - destruct b as [|b|b]; cbn; eexists; split; try reflexivity; constructor.
  - eexists; split; [reflexivity | constructor].
  - eexists; split; [reflexivity | constructor].
  - destruct b as [|b|b]; cbn; eexists; split; try reflexivity; constructor.
  - eexists; split; [reflexivity | constructor].
  - eexists; split; [reflexivity | constructor].
Qed.

Lemma concrete_parts (i : Interval) :
  concrete i = true ->
  known i = true /\ Z_shape (lower i) /\ Z_shape (upper i)
  /\ Z_leb (lower i) (upper i) = true.
Proof.
  unfold concrete. intro H.
  repeat (apply andb_true_iff in H; destruct H as [H ?]).
  auto using Z_valid_shape.
Qed.

Lemma Empty_propagates_Mul (i1 i2 : Interval) :
  Empty i1 = true \/ Empty i2 = true -> Interval_Mul i1 i2 = Ok EmptyI.
Proof.
  unfold Interval_Mul. intros [-> | ->]; [|rewrite orb_true_r]; reflexivity.
Qed.



(** ** Constraints *)

(** *** Methods that only read *)

Lemma readonly_mret {C A : Type} (a : A) : readonly (@mret C A a).
Proof. intros c g. reflexivity. Qed.

Lemma readonly_lift {C A : Type} (r : Result A) : readonly (@lift C A r).
Proof. intros c g. reflexivity. Qed.

Lemma readonly_self {C : Type} : readonly (@self C).
Proof. intros c g. reflexivity. Qed.

Lemma readonly_g_Range {C : Type} (v : ssa.Value) : readonly (@g_Range C v).
Proof. intros c g. reflexivity. Qed.

Lemma readonly_mbind {C A B : Type} (m : Method C A) (f : A -> Method C B) :
  readonly m -> (forall a, readonly (f a)) -> readonly (mbind m f).
Proof.
  intros Hm Hf c g. unfold mbind. specialize (Hm c g).
  destruct (m c g) as [[a|p] [c' g']]; cbn in Hm.
  - injection Hm as -> ->. apply Hf.
  - assumption.
Qed.

Lemma readonly_dispatch {C A : Type} (wrap : C -> Constraint)
    (m : Method C A) (c : C) (g : Graph) :
  readonly m -> snd (dispatch wrap m c g) = (wrap c, g).
Proof.
  intro Hm. unfold dispatch. specialize (Hm c g).
  destruct (m c g) as [r [c' g']]. cbn in *. congruence.
Qed.

Ltac only_reads :=
  repeat first
    [ apply readonly_mret | apply readonly_lift | apply readonly_self
    | apply readonly_g_Range
    | apply readonly_mbind; [|intro]
    | match goal with
      | |- readonly (if ?b then _ else _) => destruct b
      end ].

Lemma ArithmeticConstraint_Eval_readonly : readonly ArithmeticConstraint.Eval.
Proof. unfold ArithmeticConstraint.Eval. only_reads. Qed.

Lemma IntConversionConstraint_Eval_readonly :
  readonly IntConversionConstraint.Eval.
Proof. unfold IntConversionConstraint.Eval. cbn zeta. only_reads. Qed.

Lemma FutureIntersectionConstraint_Eval_readonly :
  readonly FutureIntersectionConstraint.Eval.
Proof. unfold FutureIntersectionConstraint.Eval. only_reads. Qed.

Lemma IntersectionConstraint_Eval_readonly :
  readonly IntersectionConstraint.Eval.
Proof. unfold IntersectionConstraint.Eval. only_reads. Qed.

Lemma IntervalConstraint_Eval_readonly : readonly IntervalConstraint.Eval.
Proof. unfold IntervalConstraint.Eval. only_reads. Qed.

Lemma Eval_readonly : readonly Eval.
Proof.
  intros [a|a|a|a|a|a|a] g; unfold Eval; apply readonly_dispatch;
    auto using ArithmeticConstraint_Eval_readonly,
      IntConversionConstraint_Eval_readonly,
      FutureIntersectionConstraint_Eval_readonly,
      IntersectionConstraint_Eval_readonly,
      IntervalConstraint_Eval_readonly.
Qed.

(** [Resolve], by contrast, writes its receiver. *)
Lemma Resolve_writes :
  exists (c : FutureIntersectionConstraint.t) (g : Graph),
    snd (FutureIntersectionConstraint.Resolve c g) <> (c, g).
Proof.
  pose (v := {| ssa.ident := 0; ssa.Type_ := types.Basic types.Int |}).
  exists {| FutureIntersectionConstraint.y := v;
            FutureIntersectionConstraint.ranges := [];
            FutureIntersectionConstraint.X := v;
            FutureIntersectionConstraint.lower := None;
            FutureIntersectionConstraint.lowerOffset := finite 0;
            FutureIntersectionConstraint.upper := None;
            FutureIntersectionConstraint.upperOffset := finite 0;
            FutureIntersectionConstraint.I := Interval_zero_value;
            FutureIntersectionConstraint.resolved := false |},
         {| Graph_Range := fun _ => IntervalRange Interval_zero_value |}.
  cbn. discriminate.
Qed.

(** Claim C9.  [Eval] of every kind of constraint leaves the constraint and
    the graph as they were, and a second call, on what the first call left,
    returns what the first call returned (a panic included). *)
Theorem Eval_repeatable (c : Constraint) (g : Graph) :
  snd (Eval c g) = (c, g)
  /\ Eval (fst (snd (Eval c g))) (snd (snd (Eval c g))) = Eval c g.
Proof.
  pose proof (Eval_readonly c g) as H. split; [assumption|].
  rewrite H. reflexivity.
Qed.

(** *** Arithmetic constraints *)

Lemma ArithmeticConstraint_Eval_known (c : ArithmeticConstraint.t) (g : Graph)
    (i1 i2 : Interval) :
  Graph_Range g (ArithmeticConstraint.A c) = IntervalRange i1 ->
  Graph_Range g (ArithmeticConstraint.B c) = IntervalRange i2 ->
  ArithmeticConstraint.Eval c g =
  (if negb (known i1) || negb (known i2)
   then Ok (IntervalRange Interval_zero_value)
   else i <- ArithmeticConstraint.Fn c i1 i2 ;; Ok (IntervalRange i),
   (c, g)).
Proof.
  intros H1 H2.
  unfold ArithmeticConstraint.Eval, mbind, self, g_Range, lift, mret, IsKnown.
  rewrite H1, H2. cbn.
  destruct (negb (known i1) || negb (known i2)); [reflexivity|].
  destruct (ArithmeticConstraint.Fn c i1 i2); reflexivity.
Qed.

Lemma Empty_propagates_Add (i1 i2 : Interval) :
  Empty i1 = true \/ Empty i2 = true -> Interval_Add i1 i2 = Ok EmptyI.
Proof.
  unfold Interval_Add. intros [-> | ->]; [|rewrite orb_true_r]; reflexivity.
Qed.

Lemma Empty_propagates_Sub (i1 i2 : Interval) :
  Empty i1 = true \/ Empty i2 = true -> Interval_Sub i1 i2 = Ok EmptyI.
Proof.
  unfold Interval_Sub. intros [-> | ->]; [|rewrite orb_true_r]; reflexivity.
Qed.

(* Eval of one of the three constraints, given the ranges of its operands *)
Lemma arithmetic_Eval (a b y : ssa.Value) (c : Constraint) (g : Graph)
    (i1 i2 : Interval) :
  In c (arithmetic_constraints a b y) ->
  Graph_Range g a = IntervalRange i1 ->
  Graph_Range g b = IntervalRange i2 ->
  exists fn,
    In fn [Interval_Add; Interval_Sub; Interval_Mul]
    /\ Eval c g =
       (if negb (known i1) || negb (known i2)
        then Ok (IntervalRange Interval_zero_value)
        else i <- fn i1 i2 ;; Ok (IntervalRange i),
        (c, g)).
Proof.
  intros Hc H1 H2.
  destruct Hc as [<- | [<- | [<- | []]]];
    [ exists Interval_Add | exists Interval_Sub | exists Interval_Mul ];
    (split; [cbn; tauto|]);
    unfold Eval, NewAddConstraint, NewSubConstraint, NewMulConstraint, dispatch;
    (erewrite ArithmeticConstraint_Eval_known;
       [reflexivity | exact H1 | exact H2]).
Qed.

Lemma Empty_propagates (fn : Interval -> Interval -> Result Interval)
    (i1 i2 : Interval) :
  In fn [Interval_Add; Interval_Sub; Interval_Mul] ->
  Empty i1 = true \/ Empty i2 = true -> fn i1 i2 = Ok EmptyI.
Proof.
  intros [<- | [<- | [<- | []]]];
    auto using Empty_propagates_Add, Empty_propagates_Sub, Empty_propagates_Mul.
Qed.

(** Claim C5.  [Eval] of an add, sub or mul constraint returns the unknown
    interval, which is not the empty one, when the range of an operand is
    unknown, and returns the empty interval when both ranges are known and
    one of them is empty. *)
Theorem Arithmetic_Eval_unknown_or_empty (a b y : ssa.Value) (c : Constraint)
    (g : Graph) (i1 i2 : Interval) :
  In c (arithmetic_constraints a b y) ->
  Graph_Range g a = IntervalRange i1 ->
  Graph_Range g b = IntervalRange i2 ->
  (known i1 = false \/ known i2 = false ->
   Eval c g = (Ok (IntervalRange Interval_zero_value), (c, g)))
  /\ (known i1 = true -> known i2 = true ->
      Empty i1 = true \/ Empty i2 = true ->
      Eval c g = (Ok (IntervalRange EmptyI), (c, g)))
  /\ known Interval_zero_value = false
  /\ Interval_zero_value <> EmptyI.
Proof.
  intros Hc H1 H2.
  destruct (arithmetic_Eval a b y c g i1 i2 Hc H1 H2) as (fn & Hfn & ->).
  split; [|split; [|split; [reflexivity | discriminate]]].
  - intros [-> | ->]; [|rewrite orb_true_r]; reflexivity.
  - intros -> -> He. cbn. rewrite (Empty_propagates fn i1 i2 Hfn He).
    reflexivity.
Qed.

(** Claim C10.  When the range of one operand is unknown and the range of
    the other is the empty interval, [Eval] of an add, sub or mul
    constraint returns the unknown interval and not the empty one. *)
Theorem Arithmetic_Eval_unknown_before_empty (a b y : ssa.Value)
    (c : Constraint) (g : Graph) (i1 i2 : Interval) :
  In c (arithmetic_constraints a b y) ->
  Graph_Range g a = IntervalRange i1 ->
  Graph_Range g b = IntervalRange i2 ->
  (known i1 = false /\ i2 = EmptyI) \/ (i1 = EmptyI /\ known i2 = false) ->
  Eval c g = (Ok (IntervalRange Interval_zero_value), (c, g))
  /\ fst (Eval c g) <> Ok (IntervalRange EmptyI).
Proof.
  intros Hc H1 H2 H.
  destruct (arithmetic_Eval a b y c g i1 i2 Hc H1 H2) as (fn & Hfn & ->).
  assert (E : negb (known i1) || negb (known i2) = true).
  { destruct H as [[-> _] | [_ ->]]; [|rewrite orb_true_r]; reflexivity. }
  rewrite E. split; [reflexivity | discriminate].
Qed.

Lemma Arithmetic_Eval_unknown_or_empty_witness :
  let a := value 0 types.Int in
  let b := value 1 types.Int in
  let y := value 2 types.Int in
  let g := graph_of [(b, IntervalRange EmptyI)] in
  let c := NewSubConstraint a b y in
  (known Interval_zero_value = false \/ known EmptyI = false ->
   Eval c g = (Ok (IntervalRange Interval_zero_value), (c, g)))
  /\ (known Interval_zero_value = true -> known EmptyI = true ->
      Empty Interval_zero_value = true \/ Empty EmptyI = true ->
      Eval c g = (Ok (IntervalRange EmptyI), (c, g)))
  /\ known Interval_zero_value = false
  /\ Interval_zero_value <> EmptyI.
Proof.
  cbv zeta.
  apply (Arithmetic_Eval_unknown_or_empty
           (value 0 types.Int) (value 1 types.Int) (value 2 types.Int)).
  - right. left. reflexivity.
  - reflexivity.
  - reflexivity.
Defined.

Lemma Arithmetic_Eval_unknown_before_empty_witness :
  let a := value 0 types.Int in
  let b := value 1 types.Int in
  let y := value 2 types.Int in
  let g := graph_of [(b, IntervalRange EmptyI)] in
  let c := NewMulConstraint a b y in
  Eval c g = (Ok (IntervalRange Interval_zero_value), (c, g))
  /\ fst (Eval c g) <> Ok (IntervalRange EmptyI).
Proof.
  cbv zeta.
  apply (Arithmetic_Eval_unknown_before_empty
           (value 0 types.Int) (value 1 types.Int) (value 2 types.Int)
           _ _ Interval_zero_value EmptyI).
  - right. right. left. reflexivity.
  - reflexivity.
  - reflexivity.
  - left. split; reflexivity.
Defined.

(** *** Integer conversion *)

(** With an unknown destination range the example conversion returns the
    source range, whose upper bound is 300, not 255. *)
Lemma Conversion_unknown_destination_keeps_300 :
  let g := graph_of [(value 0 types.Uint8, IntervalRange (closed 0 300))] in
  known Interval_zero_value = false
  /\ Graph_Range g (IntConversionConstraint.y widen_uint8)
     = IntervalRange Interval_zero_value
  /\ fst (IntConversionConstraint.Eval widen_uint8 g)
     = Ok (IntervalRange (closed 0 300))
  /\ fst (IntConversionConstraint.Eval widen_uint8 g)
     <> Ok (IntervalRange (closed 0 255)).
Proof. cbv zeta. repeat split. cbn. discriminate. Qed.

(** Claim C3, as the code has it.  Converting an unsigned 1-byte source of
    range [0,300] to an unsigned 4-byte destination returns the source
    range [0,300] unchanged while the range of the destination is unknown,
    and returns [0,255] once the range of the destination is the known
    interval from 0 to positive infinity. *)
Theorem Conversion_of_uint8_example (c : IntConversionConstraint.t)
    (g : Graph) :
  ssa.Type_ (IntConversionConstraint.X c) = types.Basic types.Uint8 ->
  ssa.Type_ (IntConversionConstraint.y c) = types.Basic types.Uint32 ->
  Graph_Range g (IntConversionConstraint.X c) = IntervalRange (closed 0 300) ->
  (forall toI, Graph_Range g (IntConversionConstraint.y c) = IntervalRange toI ->
     known toI = false ->
     IntConversionConstraint.Eval c g
     = (Ok (IntervalRange (closed 0 300)), (c, g)))
  /\ (Graph_Range g (IntConversionConstraint.y c)
      = IntervalRange {| known := true; lower := finite 0; upper := PInfinity |} ->
      IntConversionConstraint.Eval c g
      = (Ok (IntervalRange (closed 0 255)), (c, g))).
Proof.
  intros HX Hy Hg. split.
  - intros toI Ht Hk.
    unfold IntConversionConstraint.Eval, mbind, self, g_Range, lift, mret.
    rewrite Hg, Ht, HX, Hy. cbn. unfold IsKnown. rewrite Hk. reflexivity.
  - intros Ht.
    unfold IntConversionConstraint.Eval, mbind, self, g_Range, lift, mret.
    rewrite Hg, Ht, HX, Hy. reflexivity.
Qed.

Lemma Conversion_of_uint8_example_witness :
  let g := graph_of [(value 0 types.Uint8, IntervalRange (closed 0 300))] in
  (forall toI, Graph_Range g (value 1 types.Uint32) = IntervalRange toI ->
     known toI = false ->
     IntConversionConstraint.Eval widen_uint8 g
     = (Ok (IntervalRange (closed 0 300)), (widen_uint8, g)))
  /\ (Graph_Range g (value 1 types.Uint32)
      = IntervalRange {| known := true; lower := finite 0; upper := PInfinity |} ->
      IntConversionConstraint.Eval widen_uint8 g
      = (Ok (IntervalRange (closed 0 255)), (widen_uint8, g))).
Proof.
  cbv zeta. apply (Conversion_of_uint8_example widen_uint8); reflexivity.
Defined.

Example Conversion_known_destination_clamps_255 :
  let g := graph_of
             [(value 0 types.Uint8, IntervalRange (closed 0 300));
              (value 1 types.Uint32,
               IntervalRange
                 {| known := true; lower := finite 0; upper := PInfinity |})] in
  fst (IntConversionConstraint.Eval widen_uint8 g)
  = Ok (IntervalRange (closed 0 255)).
Proof. reflexivity. Qed.

(** *** Future intersection *)

Lemma Add_finite (z : Z) (k : int) :
  Z_shape z -> Z_Add z (finite k) = Ok (shift z k).
Proof.
  intros [a| |]; unfold Z_Add; cbn.
  - destruct (Z.eqb_spec (Z.sgn k) (-1)); cbn; [|reflexivity].
    destruct (Z.eqb_spec (Z.sgn (- k)) (-1)); [lia|]. cbn.
    unfold shift, finite, big.NewInt; cbn. do 3 f_equal. lia.
  - destruct (Z.eqb_spec (Z.sgn k) (-1)); cbn; [|reflexivity].
    destruct (Z.eqb_spec (Z.sgn (- k)) (-1)); [lia|reflexivity].
  - destruct (Z.eqb_spec (Z.sgn k) (-1)); cbn; [|reflexivity].
    destruct (Z.eqb_spec (Z.sgn (- k)) (-1)); [lia|reflexivity].
Qed.

Lemma shift_shape (z : Z) (k : int) : Z_shape z -> Z_shape (shift z k).
Proof. intros [a| |]; constructor. Qed.

Lemma dependency_interval_read (m : Ranges) (v : ssa.Value) (i : Interval) :
  dependency_interval m v = Some i ->
  (li <- FutureIntersectionConstraint.range_or_infinity m v ;;
   assert_Interval li) = Ok i
  /\ Z_shape (lower i) /\ Z_shape (upper i).
Proof.
  unfold dependency_interval, FutureIntersectionConstraint.range_or_infinity.
  destruct (Ranges_get m v) as [[j|]|].
  - destruct (known j && Z_valid (lower j) && Z_valid (upper j)) eqn:E;
      [|discriminate].
    intro H. injection H as <-.
    apply andb_true_iff in E. destruct E as [E Hu].
    apply andb_true_iff in E. destruct E as [_ Hl].
    auto using Z_valid_shape.
  - discriminate.
  - unfold InfinityFor.
    destruct (ssa.Type_ v) as [b|]; [destruct (types.IsUnsigned b)|];
      cbn; intro H; injection H as <-; cbn; repeat split; constructor.
Qed.

Lemma Resolve_expected (c : FutureIntersectionConstraint.t) (g : Graph)
    (kl ku : int) (l u : Z) :
  FutureIntersectionConstraint.lowerOffset c = finite kl ->
  FutureIntersectionConstraint.upperOffset c = finite ku ->
  expected_lower c kl = Some l ->
  expected_upper c ku = Some u ->
  FutureIntersectionConstraint.Resolve c g =
  (Ok tt,
   (FutureIntersectionConstraint.set_I
      (if Z_leb l u then {| known := true; lower := l; upper := u |}
       else EmptyI) c, g)).
Proof.
  intros Hkl Hku Hl Hu.
  assert (El :
    match FutureIntersectionConstraint.lower c with
    | Some v =>
        li <- FutureIntersectionConstraint.range_or_infinity
                (FutureIntersectionConstraint.ranges c) v ;;
        i <- assert_Interval li ;;
        Z_Add (lower i) (FutureIntersectionConstraint.lowerOffset c)
    | None => Ok NInfinity
    end = Ok l /\ Z_shape l).
  { unfold expected_lower in Hl.
    destruct (FutureIntersectionConstraint.lower c) as [v|].
    - destruct (dependency_interval _ v) as [i|] eqn:Ei; [|discriminate].
      injection Hl as <-.
      destruct (dependency_interval_read _ _ _ Ei) as (Er & Sl & _).
      destruct (FutureIntersectionConstraint.range_or_infinity _ v) as [r|];
        cbn [bind] in Er |- *; [|discriminate].
      rewrite Er. cbn [bind]. rewrite Hkl, (Add_finite _ kl Sl).
      split; [reflexivity | apply shift_shape; assumption].
    - injection Hl as <-. split; [reflexivity | constructor]. }
  assert (Eu :
    match FutureIntersectionConstraint.upper c with
    | Some v =>
        ui <- FutureIntersectionConstraint.range_or_infinity
                (FutureIntersectionConstraint.ranges c) v ;;
        i <- assert_Interval ui ;;
        Z_Add (upper i) (FutureIntersectionConstraint.upperOffset c)
    | None => Ok PInfinity
    end = Ok u /\ Z_shape u).
  { unfold expected_upper in Hu.
    destruct (FutureIntersectionConstraint.upper c) as [v|].
    - destruct (dependency_interval _ v) as [i|] eqn:Ei; [|discriminate].
      injection Hu as <-.
      destruct (dependency_interval_read _ _ _ Ei) as (Er & _ & Su).
      destruct (FutureIntersectionConstraint.range_or_infinity _ v) as [r|];
        cbn [bind] in Er |- *; [|discriminate].
      rewrite Er. cbn [bind]. rewrite Hku, (Add_finite _ ku Su).
      split; [reflexivity | apply shift_shape; assumption].
    - injection Hu as <-. split; [reflexivity | constructor]. }
  destruct El as [El Sl], Eu as [Eu Su].
  unfold FutureIntersectionConstraint.Resolve, mbind, self, lift, mret, assign.
  destruct (FutureIntersectionConstraint.lower c) as [vl|];
    destruct (FutureIntersectionConstraint.upper c) as [vu|];
    repeat match goal with
           | |- context [FutureIntersectionConstraint.range_or_infinity ?m ?v] =>
               destruct (FutureIntersectionConstraint.range_or_infinity m v);
               cbn [bind] in El, Eu; try discriminate
           | |- context [assert_Interval ?r] =>
               destruct (assert_Interval r);
               cbn [bind] in El, Eu; try discriminate
           end;
    try rewrite El; try rewrite Eu;
    try (injection El as <-); try (injection Eu as <-);
    rewrite (NewInterval_valid _ _ Sl Su); reflexivity.
Qed.

(** With a lower dependency of range [0, 10] and offset 0, resolution
    sets the lower endpoint to 0, the lower component of that range, and
    not to 10, its upper component. *)
Lemma Resolve_lower_reads_lower_component :
  let g := graph_of [] in
  let v := value 1 types.Int in
  FutureIntersectionConstraint.lower above_v = Some v
  /\ Ranges_get (FutureIntersectionConstraint.ranges above_v) v
     = Some (IntervalRange (closed 0 10))
  /\ FutureIntersectionConstraint.lowerOffset above_v = finite 0
  /\ FutureIntersectionConstraint.Resolve above_v g
     = (Ok tt,
        (FutureIntersectionConstraint.set_I
           {| known := true; lower := finite 0; upper := PInfinity |} above_v,
         g))
  /\ Z_Add (upper (closed 0 10)) (finite 0) = Ok (finite 10)
  /\ lower (FutureIntersectionConstraint.I
              (fst (snd (FutureIntersectionConstraint.Resolve above_v g))))
     <> finite 10.
Proof. cbv zeta. repeat split. cbn. discriminate. Qed.

(** Claim C2, as the code has it.  [Resolve] sets the bound interval to
    [NewInterval(l, u)], where [l] is the lower component of the range of
    the lower dependency plus [lowerOffset] when that dependency is present,
    and negative infinity when it is absent, and [u] is the upper component
    of the range of the upper dependency plus [upperOffset] when that
    dependency is present, and positive infinity when it is absent; the
    range of a dependency is its known entry in [ranges], or the whole
    range of its type when it has no entry.  With no lower dependency and
    an upper dependency of range [0,10] with offset -1 the bound is
    [-oo, 9], and evaluation against the source range [-5,50] gives
    [-5,9]. *)
Theorem Resolve_bounds (c : FutureIntersectionConstraint.t) (g : Graph) :
  (forall (kl ku : int) (l u : Z),
     FutureIntersectionConstraint.lowerOffset c = finite kl ->
     FutureIntersectionConstraint.upperOffset c = finite ku ->
     expected_lower c kl = Some l ->
     expected_upper c ku = Some u ->
     FutureIntersectionConstraint.Resolve c g =
     (Ok tt,
      (FutureIntersectionConstraint.set_I
         (if Z_leb l u then {| known := true; lower := l; upper := u |}
          else EmptyI) c, g)))
  /\ (forall v : ssa.Value,
        FutureIntersectionConstraint.lower c = None ->
        FutureIntersectionConstraint.upper c = Some v ->
        FutureIntersectionConstraint.upperOffset c = finite (-1) ->
        Ranges_get (FutureIntersectionConstraint.ranges c) v
        = Some (IntervalRange (closed 0 10)) ->
        let c' := FutureIntersectionConstraint.set_I
                    {| known := true; lower := NInfinity; upper := finite 9 |}
                    c in
        FutureIntersectionConstraint.Resolve c g = (Ok tt, (c', g))
        /\ (Graph_Range g (FutureIntersectionConstraint.X c)
            = IntervalRange (closed (-5) 50) ->
            FutureIntersectionConstraint.Eval c' g
            = (Ok (IntervalRange (closed (-5) 9)), (c', g)))).
Proof.
  split.
  - intros kl ku l u. apply Resolve_expected.
  - intros v Hl Hu Ho Hr. cbv zeta. split.
    + unfold FutureIntersectionConstraint.Resolve, mbind, self, lift, mret,
        assign, FutureIntersectionConstraint.range_or_infinity.
      rewrite Hl, Hu, Hr, Ho. reflexivity.
    + intro Hx.
      unfold FutureIntersectionConstraint.Eval, mbind, self, g_Range, lift,
        mret.
      cbn [FutureIntersectionConstraint.X FutureIntersectionConstraint.I
           FutureIntersectionConstraint.set_I].
      rewrite Hx. reflexivity.
Qed.

Lemma Resolve_bounds_witness :
  let g := graph_of [(value 0 types.Int, IntervalRange (closed (-5) 50))] in
  let c' := FutureIntersectionConstraint.set_I
              {| known := true; lower := NInfinity; upper := finite 9 |}
              below_v in
  FutureIntersectionConstraint.Resolve below_v g = (Ok tt, (c', g))
  /\ FutureIntersectionConstraint.Resolve below_v g = (Ok tt, (c', g))
  /\ FutureIntersectionConstraint.Eval c' g
     = (Ok (IntervalRange (closed (-5) 9)), (c', g)).
Proof.
  cbv zeta.
  pose (g := graph_of [(value 0 types.Int, IntervalRange (closed (-5) 50))]).
  split.
  - apply (proj1 (Resolve_bounds below_v g) 0 (-1) NInfinity (finite 9));
      reflexivity.
  - destruct (proj2 (Resolve_bounds below_v g) (value 1 types.Int)
                eq_refl eq_refl eq_refl eq_refl) as [Hr He].
    split; [exact Hr | apply He; reflexivity].
Defined.

(** * Further properties *)

(** ** Extended integers: negation, sign and order *)

Ltac by_cases :=
  repeat match goal with
         | H : Z_shape _ |- _ => destruct H
         end;
  unfold Z_Add, Z_Sub, Z_Negate, Z_Sign, Z_leb, Z_Cmp, eq_PInfinity,
    eq_NInfinity, Infinite, opposite_infinities in *;
  cbn in *;
  repeat match goal with
         | |- context [?a =? ?b] => destruct (Z.eqb_spec a b); cbn in *
         | |- context [?a ?= ?b] => destruct (Z.compare_spec a b); cbn in *
         | H : context [?a ?= ?b] |- _ =>
             destruct (Z.compare_spec a b); cbn in *
         end;
  subst; try discriminate; try lia.

(** Property X1.  [Negate] never panics on a well-formed value, gives a well-formed
    value, and is its own inverse. *)
Theorem Negate_involutive (z : Z) :
  Z_valid z = true ->
  exists n, Z_Negate z = Ok n /\ Z_valid n = true /\ Z_Negate n = Ok z.
Proof.
  intro H. apply Z_valid_shape in H. destruct H as [a| |].
  - exists (finite (- a)). repeat split.
    unfold Z_Negate, finite, NewZ, big.NewInt; cbn. do 3 f_equal; lia.
  - exists NInfinity. repeat split.
  - exists PInfinity. repeat split.
Qed.

Lemma Negate_involutive_witness :
  exists n, Z_Negate (finite 5) = Ok n /\ Z_valid n = true
            /\ Z_Negate n = Ok (finite 5).
Proof. apply (Negate_involutive (finite 5)). reflexivity. Defined.

(** [Sign] of a well-formed value is -1, 0 or 1, and [Negate] flips
    it. *)
Theorem Sign_of_Negate (z : Z) :
  Z_valid z = true ->
  exists s n, Z_Sign z = Ok s /\ (s = -1 \/ s = 0 \/ s = 1)
              /\ Z_Negate z = Ok n /\ Z_Sign n = Ok (- s).
Proof.
  intro H. apply Z_valid_shape in H. destruct H as [a| |].
  - exists (Z.sgn a), (finite (- a)). repeat split; [lia|].
    unfold Z_Sign; cbn. f_equal. lia.
  - exists 1, NInfinity. repeat split. lia.
  - exists (-1), PInfinity. repeat split. lia.
Qed.

Lemma Sign_of_Negate_witness :
  exists s n, Z_Sign NInfinity = Ok s /\ (s = -1 \/ s = 0 \/ s = 1)
              /\ Z_Negate NInfinity = Ok n /\ Z_Sign n = Ok (- s).
Proof. apply (Sign_of_Negate NInfinity). reflexivity. Defined.

(** Property X2.  On well-formed values [Cmp] returns -1, 0 or 1, swapping the operands
    negates the result, and the result is 0 exactly when the operands are
    the same value. *)
Theorem Cmp_antisymmetric (a b : Z) :
  Z_valid a = true -> Z_valid b = true ->
  exists c, Z_Cmp a b = Ok c /\ (c = -1 \/ c = 0 \/ c = 1)
            /\ Z_Cmp b a = Ok (- c) /\ (c = 0 <-> a = b).
Proof.
  intros Ha Hb. apply Z_valid_shape in Ha. apply Z_valid_shape in Hb.
  destruct Ha as [x| |], Hb as [y| |];
    try (eexists; repeat split; try reflexivity; try lia; discriminate).
  exists (big.of_comparison (x ?= y)). unfold Z_Cmp; cbn.
  rewrite (Z.compare_antisym x y).
  destruct (Z.compare_spec x y); cbn; repeat split;
    try lia; try congruence; intro E; try discriminate;
    injection E as E; lia.
Qed.

Lemma Cmp_antisymmetric_witness :
  exists c, Z_Cmp (finite 3) PInfinity = Ok c /\ (c = -1 \/ c = 0 \/ c = 1)
            /\ Z_Cmp PInfinity (finite 3) = Ok (- c)
            /\ (c = 0 <-> finite 3 = PInfinity).
Proof. apply (Cmp_antisymmetric (finite 3) PInfinity); reflexivity. Defined.

(** Property X3.  [Cmp] is transitive on well-formed values: if neither [a.Cmp(b)] nor
    [b.Cmp(c)] is 1 then [a.Cmp(c)] is not 1, and it is -1 as soon as one
    of the two is. *)
Theorem Cmp_transitive (a b c : Z) (ab bc : int) :
  Z_valid a = true -> Z_valid b = true -> Z_valid c = true ->
  Z_Cmp a b = Ok ab -> Z_Cmp b c = Ok bc -> ab <> 1 -> bc <> 1 ->
  exists ac, Z_Cmp a c = Ok ac /\ ac <> 1
             /\ (ab = -1 \/ bc = -1 -> ac = -1).
Proof.
  intros Ha Hb Hc. apply Z_valid_shape in Ha, Hb, Hc.
  rewrite (Cmp_of_leb a b Ha Hb), (Cmp_of_leb b c Hb Hc),
    (Cmp_of_leb a c Ha Hc).
  intros E1 E2 N1 N2. injection E1 as <-. injection E2 as <-.
  destruct (Z_leb a b) eqn:Lab; [|congruence].
  destruct (Z_leb b c) eqn:Lbc; [|congruence].
  rewrite (Z_leb_trans a b c Ha Hb Hc Lab Lbc).
  eexists. split; [reflexivity|].
  destruct (Z_leb c a) eqn:Lca.
  - assert (Lcb : Z_leb c b = true) by (apply (Z_leb_trans c a b); assumption).
    assert (Lba : Z_leb b a = true) by (apply (Z_leb_trans b c a); assumption).
    rewrite Lcb, Lba. split; [discriminate|]. intros [E|E]; discriminate.
  - split; [discriminate | reflexivity].
Qed.

Lemma Cmp_transitive_witness :
  exists ac, Z_Cmp NInfinity (finite 4) = Ok ac /\ ac <> 1
             /\ (-1 = -1 \/ -1 = -1 -> ac = -1).
Proof.
  apply (Cmp_transitive NInfinity (finite 0) (finite 4) (-1) (-1));
    try reflexivity; discriminate.
Defined.

(** ** Extended integers: arithmetic *)

Ltac sign_cases :=
  repeat match goal with
         | |- context [Z.sgn ?v =? ?c] =>
             destruct (Z.eqb_spec (Z.sgn v) c); cbn
         end;
  try lia; try reflexivity.

Lemma Sub_finite (a b : int) :
  Z_Sub (finite a) (finite b) = Ok (finite (a - b)).
Proof.
  unfold Z_Sub. cbn.
  destruct (Z.eqb_spec (Z.sgn b) (-1)); cbn; [|reflexivity].
  destruct (Z.eqb_spec (Z.sgn (- b)) (-1)); [lia|]. cbn.
  unfold finite, NewZ, big.NewInt. do 3 f_equal; lia.
Qed.

Lemma Mul_finite (a b : int) :
  Z_Mul (finite a) (finite b) = Ok (finite (a * b)).
Proof.
  unfold Z_Mul. cbn.
  destruct (Z.eqb_spec (Z.sgn a) 0); cbn.
  - unfold finite, NewZ, big.NewInt, big.zero. do 3 f_equal; lia.
  - destruct (Z.eqb_spec (Z.sgn b) 0); cbn; [|reflexivity].
    unfold finite, NewZ, big.NewInt, big.zero. do 3 f_equal; lia.
Qed.

Lemma finite_eq (a b : int) : a = b -> Ok (finite a) = Ok (finite b).
Proof. intros ->. reflexivity. Qed.

(** Property X4.  On finite operands [Add], [Sub] and [Mul] are the exact integer
    operations, whatever the signs of the operands. *)
Theorem finite_arithmetic_exact (a b : int) :
  Z_Add (finite a) (finite b) = Ok (finite (a + b))
  /\ Z_Sub (finite a) (finite b) = Ok (finite (a - b))
  /\ Z_Mul (finite a) (finite b) = Ok (finite (a * b)).
Proof.
  split; [|split].
  - apply (Add_finite (finite a) b). constructor.
  - apply Sub_finite.
  - apply Mul_finite.
Qed.

Lemma Add_shapes (a b : Z) :
  Z_shape a -> Z_shape b -> opposite_infinities a b = false ->
  exists r, Z_Add a b = Ok r /\ Z_Add b a = Ok r /\ Z_shape r.
Proof.
  intros Ha Hb. destruct Ha as [x| |], Hb as [y| |]; intro Ho;
    try discriminate Ho.
  - exists (finite (x + y)).
    rewrite (Add_finite (finite x) y (shape_finite x)).
    rewrite (Add_finite (finite y) x (shape_finite y)).
    split; [reflexivity|]. split; [apply finite_eq; lia | constructor].
  - exists PInfinity. rewrite PInfinity_Add_finite.
    split; [reflexivity|]. split; [reflexivity | constructor].
  - exists NInfinity. rewrite (Add_finite NInfinity x shape_NInfinity).
    split; [reflexivity|]. split; [reflexivity | constructor].
  - exists PInfinity. rewrite PInfinity_Add_finite.
    split; [reflexivity|]. split; [reflexivity | constructor].
  - exists PInfinity. split; [reflexivity|]. split; [reflexivity | constructor].
  - exists NInfinity. rewrite (Add_finite NInfinity y shape_NInfinity).
    split; [reflexivity|]. split; [reflexivity | constructor].
  - exists NInfinity. split; [reflexivity|]. split; [reflexivity | constructor].
Qed.

(** Property X5.  [Add] is commutative on well-formed operands that are not a positive
    and a negative infinity: both orders return the same well-formed
    value. *)
Theorem Add_commutes (a b : Z) :
  Z_valid a = true -> Z_valid b = true -> opposite_infinities a b = false ->
  exists r, Z_Add a b = Ok r /\ Z_Add b a = Ok r /\ Z_valid r = true.
Proof.
  intros Ha Hb Ho.
  destruct (Add_shapes a b (Z_valid_shape _ Ha) (Z_valid_shape _ Hb) Ho)
    as (r & E1 & E2 & Sr).
  exists r. auto using Z_shape_valid.
Qed.

Lemma Add_commutes_witness :
  exists r, Z_Add (finite (-7)) NInfinity = Ok r
            /\ Z_Add NInfinity (finite (-7)) = Ok r /\ Z_valid r = true.
Proof. apply (Add_commutes (finite (-7)) NInfinity); reflexivity. Defined.

Lemma Sub_Add_Negate_shapes (a b : Z) :
  Z_shape a -> Z_shape b ->
  exists n, Z_Negate b = Ok n /\ Z_shape n /\ Z_Sub a b = Z_Add a n.
Proof.
  intros Ha Hb. destruct Hb as [y| |].
  - exists (finite (- y)). split; [reflexivity|]. split; [constructor|].
    destruct Ha as [x| |].
    + rewrite Sub_finite, (Add_finite (finite x) (- y) (shape_finite x)).
      apply finite_eq. lia.
    + rewrite PInfinity_Add_finite. unfold Z_Sub; cbn. sign_cases.
    + rewrite (Add_finite NInfinity (- y) shape_NInfinity).
      unfold Z_Sub; cbn. sign_cases.
  - exists NInfinity. split; [reflexivity|]. split; [constructor|].
    destruct Ha as [x| |]; reflexivity.
  - exists PInfinity. split; [reflexivity|]. split; [constructor|].
    destruct Ha as [x| |]; reflexivity.
Qed.

(** Property X6.  [a.Sub(b)] is [a.Add(b.Negate())] on all well-formed operands: the two
    return the same value, or panic alike. *)
Theorem Sub_is_Add_of_Negate (a b : Z) :
  Z_valid a = true -> Z_valid b = true ->
  exists n, Z_Negate b = Ok n /\ Z_Sub a b = Z_Add a n.
Proof.
  intros Ha Hb.
  destruct (Sub_Add_Negate_shapes a b (Z_valid_shape _ Ha) (Z_valid_shape _ Hb))
    as (n & En & _ & E).
  exists n. split; assumption.
Qed.

Lemma Sub_is_Add_of_Negate_witness :
  exists n, Z_Negate (finite 4) = Ok n
            /\ Z_Sub NInfinity (finite 4) = Z_Add NInfinity n.
Proof. apply (Sub_is_Add_of_Negate NInfinity (finite 4)); reflexivity. Defined.

Lemma Mul_shapes (a b : Z) :
  Z_shape a -> Z_shape b ->
  exists p sa sb, Z_Mul a b = Ok p /\ Z_Mul b a = Ok p /\ Z_shape p
                  /\ Z_Sign a = Ok sa /\ Z_Sign b = Ok sb
                  /\ Z_Sign p = Ok (sa * sb).
Proof.
  intros Ha Hb.
  destruct Ha as [x| |], Hb as [y| |].
  1: { exists (finite (x * y)), (Z.sgn x), (Z.sgn y).
       rewrite (Mul_finite x y), (Mul_finite y x).
       split; [reflexivity|]. split; [apply finite_eq; lia|].
       split; [constructor|]. split; [reflexivity|]. split; [reflexivity|].
       unfold Z_Sign; cbn. f_equal. apply Z.sgn_mul. }
  all: try (destruct x as [|x|x]); try (destruct y as [|y|y]);
    do 3 eexists; (split; [vm_compute; reflexivity|]);
    (split; [reflexivity|]); (split; [constructor|]);
    (split; [reflexivity|]); split; reflexivity.
Qed.

(** Property X7.  [Mul] never panics on well-formed operands and is commutative: both
    orders return the same well-formed value. *)
Theorem Mul_commutes (a b : Z) :
  Z_valid a = true -> Z_valid b = true ->
  exists p, Z_Mul a b = Ok p /\ Z_Mul b a = Ok p /\ Z_valid p = true.
Proof.
  intros Ha Hb.
  destruct (Mul_shapes a b (Z_valid_shape _ Ha) (Z_valid_shape _ Hb))
    as (p & sa & sb & E1 & E2 & Sp & _).
  exists p. auto using Z_shape_valid.
Qed.

Lemma Mul_commutes_witness :
  exists p, Z_Mul (finite (-2)) PInfinity = Ok p
            /\ Z_Mul PInfinity (finite (-2)) = Ok p /\ Z_valid p = true.
Proof. apply (Mul_commutes (finite (-2)) PInfinity); reflexivity. Defined.

(** Property X8.  The sign of a product is the product of the signs, infinities
    included: an infinity times a negative value is the opposite infinity,
    and anything times zero has sign 0. *)
Theorem Mul_sign (a b : Z) :
  Z_valid a = true -> Z_valid b = true ->
  exists p sa sb, Z_Mul a b = Ok p /\ Z_Sign a = Ok sa /\ Z_Sign b = Ok sb
                  /\ Z_Sign p = Ok (sa * sb).
Proof.
  intros Ha Hb.
  destruct (Mul_shapes a b (Z_valid_shape _ Ha) (Z_valid_shape _ Hb))
    as (p & sa & sb & E1 & _ & _ & Ea & Eb & Ep).
  exists p, sa, sb. auto.
Qed.

Lemma Mul_sign_witness :
  exists p sa sb, Z_Mul NInfinity (finite (-3)) = Ok p
                  /\ Z_Sign NInfinity = Ok sa /\ Z_Sign (finite (-3)) = Ok sb
                  /\ Z_Sign p = Ok (sa * sb).
Proof. apply (Mul_sign NInfinity (finite (-3))); reflexivity. Defined.

(** ** Max and Min *)

Lemma forallb_valid_shapes (zs : list Z) :
  forallb Z_valid zs = true -> Forall Z_shape zs.
Proof.
  intro H. apply Forall_forall. intros z Hz.
  apply Z_valid_shape. rewrite forallb_forall in H. auto.
Qed.

(** Property X9.  [Max] and [Min] panic without arguments; on well-formed arguments
    they return one of the arguments, which no argument exceeds
    (respectively is below) under [Cmp]. *)
Theorem Max_Min_bounds (zs : list Z) :
  (zs = [] ->
   Max zs = Abort MaxNoArguments /\ Min zs = Abort MinNoArguments)
  /\ (zs <> [] -> forallb Z_valid zs = true ->
      exists lo hi,
        Min zs = Ok lo /\ Max zs = Ok hi /\ In lo zs /\ In hi zs
        /\ forall z, In z zs -> Z_leb lo z = true /\ Z_leb z hi = true).
Proof.
  split.
  - intros ->. split; reflexivity.
  - intros Hne Hv. apply forallb_valid_shapes in Hv.
    destruct (Min_spec zs Hne Hv) as (lo & Elo & _ & Ilo & Alo).
    destruct (Max_spec zs Hne Hv) as (hi & Ehi & _ & Ihi & Ahi).
    exists lo, hi. repeat (split; [assumption|]).
    intros z Hz. rewrite Forall_forall in Alo, Ahi. auto.
Qed.

Lemma Max_Min_bounds_witness :
  exists lo hi,
    Min [finite 3; NInfinity; finite (-2)] = Ok lo
    /\ Max [finite 3; NInfinity; finite (-2)] = Ok hi
    /\ In lo [finite 3; NInfinity; finite (-2)]
    /\ In hi [finite 3; NInfinity; finite (-2)]
    /\ forall z, In z [finite 3; NInfinity; finite (-2)] ->
                 Z_leb lo z = true /\ Z_leb z hi = true.
Proof.
  apply (proj2 (Max_Min_bounds [finite 3; NInfinity; finite (-2)]));
    [discriminate | reflexivity].
Defined.

(** ** Intervals as sets of finite values *)

Lemma contains_concrete (l u : Z) (x : int) :
  contains {| known := true; lower := l; upper := u |} x
  = Z_leb l (finite x) && Z_leb (finite x) u.
Proof. reflexivity. Qed.

Lemma contains_EmptyI (x : int) : contains EmptyI x = false.
Proof. reflexivity. Qed.

Lemma leb_max_left (a b z : Z) :
  Z_shape a -> Z_shape b -> Z_shape z ->
  Z_leb (if Z_leb b a then a else b) z = Z_leb a z && Z_leb b z.
Proof. intros Ha Hb Hz. by_shape. Qed.

Lemma leb_min_right (a b z : Z) :
  Z_shape a -> Z_shape b -> Z_shape z ->
  Z_leb z (if Z_leb a b then a else b) = Z_leb z a && Z_leb z b.
Proof. intros Ha Hb Hz. by_shape. Qed.

Lemma leb_min_left (a b z : Z) :
  Z_shape a -> Z_shape b -> Z_shape z ->
  Z_leb (if Z_leb a b then a else b) z = Z_leb a z || Z_leb b z.
Proof. intros Ha Hb Hz. by_shape. Qed.

Lemma leb_max_right (a b z : Z) :
  Z_shape a -> Z_shape b -> Z_shape z ->
  Z_leb z (if Z_leb b a then a else b) = Z_leb z a || Z_leb z b.
Proof. intros Ha Hb Hz. by_shape. Qed.

Lemma concrete_valid (l u : Z) :
  Z_shape l -> Z_shape u -> Z_leb l u = true ->
  Interval_valid {| known := true; lower := l; upper := u |} = true.
Proof.
  intros Hl Hu H. unfold Interval_valid, concrete. cbn.
  rewrite (Z_shape_valid l Hl), (Z_shape_valid u Hu), H.
  apply orb_true_r.
Qed.

Lemma normalized_valid (l u : Z) :
  Z_shape l -> Z_shape u ->
  Interval_valid (if Z_leb l u
                  then {| known := true; lower := l; upper := u |}
                  else EmptyI) = true.
Proof.
  intros Hl Hu. destruct (Z_leb l u) eqn:H;
    [apply concrete_valid; assumption | reflexivity].
Qed.

Lemma normalized_contains (l u : Z) (x : int) :
  Z_shape l -> Z_shape u ->
  contains (if Z_leb l u
            then {| known := true; lower := l; upper := u |}
            else EmptyI) x
  = Z_leb l (finite x) && Z_leb (finite x) u.
Proof.
  intros Hl Hu. destruct (Z_leb l u) eqn:H; [reflexivity|].
  rewrite contains_EmptyI. symmetry. apply andb_false_iff.
  destruct (Z_leb l (finite x)) eqn:H1; [|left; reflexivity].
  destruct (Z_leb (finite x) u) eqn:H2; [|right; reflexivity].
  rewrite (Z_leb_trans l (finite x) u Hl (shape_finite x) Hu H1 H2) in H.
  discriminate.
Qed.

(** Property X10.  [NewInterval] of well-formed bounds never panics and returns an
    interval in one of the allowed states, known, which holds exactly the
    finite values between the bounds: none when the bounds cross. *)
Theorem NewInterval_normalizes (l u : Z) :
  Z_valid l = true -> Z_valid u = true ->
  exists i, NewInterval l u = Ok i /\ Interval_valid i = true
            /\ known i = true
            /\ Empty i = negb (Z_leb l u)
            /\ forall x, contains i x
                         = Z_leb l (finite x) && Z_leb (finite x) u.
Proof.
  intros Hl Hu. apply Z_valid_shape in Hl, Hu.
  eexists. split; [apply (NewInterval_valid l u Hl Hu)|].
  split; [apply normalized_valid; assumption|].
  split; [destruct (Z_leb l u); reflexivity|].
  split.
  - destruct (Z_leb l u) eqn:H; [|reflexivity].
    apply concrete_not_Empty. assumption.
  - intro x. apply normalized_contains; assumption.
Qed.

Lemma NewInterval_normalizes_witness :
  exists i, NewInterval (finite 2) PInfinity = Ok i
            /\ Interval_valid i = true /\ known i = true
            /\ Empty i = negb (Z_leb (finite 2) PInfinity)
            /\ forall x, contains i x
                         = Z_leb (finite 2) (finite x)
                           && Z_leb (finite x) PInfinity.
Proof. apply (NewInterval_normalizes (finite 2) PInfinity); reflexivity. Defined.

Lemma known_states (i : Interval) :
  Interval_valid i = true -> known i = true ->
  i = EmptyI
  \/ exists l u, i = {| known := true; lower := l; upper := u |}
                 /\ Z_shape l /\ Z_shape u /\ Z_leb l u = true.
Proof.
  intros Hv Hk. destruct (Interval_valid_state i Hv) as [| |l u Hl Hu H].
  - discriminate.
  - left. reflexivity.
  - right. exists l, u. auto.
Qed.

Lemma Intersection_known_Empty (i1 i2 : Interval) :
  known i1 = true -> known i2 = true ->
  Empty i1 = true \/ Empty i2 = true ->
  Interval_Intersection i1 i2 = Ok EmptyI.
Proof.
  intros K1 K2 H. unfold Interval_Intersection, IsKnown. rewrite K1, K2. cbn.
  destruct H as [-> | ->]; [|rewrite orb_true_r]; reflexivity.
Qed.

Lemma Intersection_known (i1 i2 : Interval) :
  Interval_valid i1 = true -> Interval_valid i2 = true ->
  known i1 = true -> known i2 = true ->
  exists i, Interval_Intersection i1 i2 = Ok i
            /\ Interval_valid i = true /\ known i = true
            /\ forall x, contains i x = contains i1 x && contains i2 x.
Proof.
  intros V1 V2 K1 K2.
  destruct (known_states i1 V1 K1) as [-> | (l1 & u1 & -> & Hl1 & Hu1 & L1)].
  { exists EmptyI. split.
    - apply Intersection_known_Empty; auto.
    - repeat split. }
  destruct (known_states i2 V2 K2) as [-> | (l2 & u2 & -> & Hl2 & Hu2 & L2)].
  { exists EmptyI. split.
    - apply Intersection_known_Empty; auto.
    - repeat split. intro x. rewrite contains_EmptyI, andb_false_r.
      reflexivity. }
  rewrite Intersection_concrete by assumption. cbn zeta.
  set (lo := if Z_leb l2 l1 then l1 else l2).
  set (hi := if Z_leb u1 u2 then u1 else u2).
  assert (Hlo : Z_shape lo) by (apply if_shape; assumption).
  assert (Hhi : Z_shape hi) by (apply if_shape; assumption).
  eexists. split; [reflexivity|].
  split; [apply normalized_valid; assumption|].
  split; [destruct (Z_leb lo hi); reflexivity|].
  intro x. rewrite (normalized_contains lo hi x Hlo Hhi).
  rewrite !contains_concrete. subst lo hi.
  rewrite (leb_max_left l1 l2 (finite x)) by (assumption || constructor).
  rewrite (leb_min_right u1 u2 (finite x)) by (assumption || constructor).
  destruct (Z_leb l1 (finite x)), (Z_leb l2 (finite x)),
    (Z_leb (finite x) u1), (Z_leb (finite x) u2); reflexivity.
Qed.

(** Property X11.  [Intersection] of two known intervals is their meet: it never panics,
    returns a known interval in an allowed state, and a finite value lies
    in the result exactly when it lies in both operands. *)
Theorem Intersection_is_meet (i1 i2 : Interval) :
  Interval_valid i1 = true -> Interval_valid i2 = true ->
  known i1 = true -> known i2 = true ->
  exists i, Interval_Intersection i1 i2 = Ok i
            /\ Interval_valid i = true /\ known i = true
            /\ forall x, contains i x = contains i1 x && contains i2 x.
Proof. apply Intersection_known. Qed.

Lemma Intersection_is_meet_witness :
  exists i, Interval_Intersection (closed 0 10) (closed 20 30) = Ok i
            /\ Interval_valid i = true /\ known i = true
            /\ forall x, contains i x
                         = contains (closed 0 10) x
                           && contains (closed 20 30) x.
Proof.
  apply (Intersection_is_meet (closed 0 10) (closed 20 30)); reflexivity.
Defined.

Lemma Union_known_Empty_left (i2 : Interval) :
  Interval_Union EmptyI (IntervalRange i2) = Ok (IntervalRange i2).
Proof. reflexivity. Qed.

Lemma Union_known_Empty_right (l u : Z) :
  Z_leb l u = true ->
  Interval_Union {| known := true; lower := l; upper := u |}
                 (IntervalRange EmptyI)
  = Ok (IntervalRange {| known := true; lower := l; upper := u |}).
Proof.
  intro H. unfold Interval_Union. rewrite (concrete_not_Empty l u H).
  reflexivity.
Qed.

(** Property X12.  [Union] of two known intervals is their hull: it never panics, returns
    a known interval in an allowed state, and every finite value of either
    operand lies in the result. *)
Theorem Union_is_hull (i1 i2 : Interval) :
  Interval_valid i1 = true -> Interval_valid i2 = true ->
  known i1 = true -> known i2 = true ->
  exists i, Interval_Union i1 (IntervalRange i2) = Ok (IntervalRange i)
            /\ Interval_valid i = true /\ known i = true
            /\ forall x, contains i1 x || contains i2 x = true ->
                         contains i x = true.
Proof.
  intros V1 V2 K1 K2.
  destruct (known_states i1 V1 K1) as [-> | (l1 & u1 & -> & Hl1 & Hu1 & L1)].
  { exists i2. split; [apply Union_known_Empty_left|].
    repeat split; try assumption. intros x H.
    rewrite contains_EmptyI in H. exact H. }
  destruct (known_states i2 V2 K2) as [-> | (l2 & u2 & -> & Hl2 & Hu2 & L2)].
  { eexists. split; [apply Union_known_Empty_right; assumption|].
    repeat split; try assumption. intros x H.
    rewrite contains_EmptyI, orb_false_r in H. exact H. }
  rewrite Union_concrete by assumption. cbn zeta.
  set (lo := if Z_leb l1 l2 then l1 else l2).
  set (hi := if Z_leb u2 u1 then u1 else u2).
  assert (Hlo : Z_shape lo) by (apply if_shape; assumption).
  assert (Hhi : Z_shape hi) by (apply if_shape; assumption).
  eexists. split; [reflexivity|].
  split; [apply normalized_valid; assumption|].
  split; [destruct (Z_leb lo hi); reflexivity|].
  intros x H. rewrite (normalized_contains lo hi x Hlo Hhi).
  rewrite !contains_concrete in H. subst lo hi.
  rewrite (leb_min_left l1 l2 (finite x)) by (assumption || constructor).
  rewrite (leb_max_right u1 u2 (finite x)) by (assumption || constructor).
  destruct (Z_leb l1 (finite x)), (Z_leb l2 (finite x)),
    (Z_leb (finite x) u1), (Z_leb (finite x) u2);
    try reflexivity; discriminate.
Qed.

Lemma Union_is_hull_witness :
  exists i, Interval_Union (closed 0 10) (IntervalRange (closed 20 30))
            = Ok (IntervalRange i)
            /\ Interval_valid i = true /\ known i = true
            /\ forall x, contains (closed 0 10) x || contains (closed 20 30) x
                         = true -> contains i x = true.
Proof.
  apply (Union_is_hull (closed 0 10) (closed 20 30)); reflexivity.
Defined.

(** Property X13.  [Union] with a range that is not an [Interval] treats it as empty: a
    concrete receiver is returned as it is, and an unknown or empty
    receiver gives the empty interval. *)
Theorem Union_with_other_range (i : Interval) :
  Interval_valid i = true ->
  Interval_Union i OtherRange
  = Ok (IntervalRange (if concrete i then i else EmptyI)).
Proof.
  intro V. destruct (Interval_valid_state i V) as [| |l u Hl Hu H];
    try reflexivity.
  unfold Interval_Union, concrete. cbn [known lower upper].
  rewrite (concrete_not_Empty l u H), (Z_shape_valid l Hl),
    (Z_shape_valid u Hu), H.
  reflexivity.
Qed.

Lemma Union_with_other_range_witness :
  Interval_Union Interval_zero_value OtherRange
  = Ok (IntervalRange (if concrete Interval_zero_value
                       then Interval_zero_value else EmptyI)).
Proof. apply (Union_with_other_range Interval_zero_value). reflexivity. Defined.

(** ** Soundness of interval arithmetic *)

Lemma proper_parts (i : Interval) :
  proper i = true ->
  exists l u, i = {| known := true; lower := l; upper := u |}
              /\ Z_shape l /\ Z_shape u /\ Z_leb l u = true
              /\ eq_PInfinity l = false /\ eq_NInfinity u = false.
Proof.
  unfold proper. intro H.
  apply andb_true_iff in H. destruct H as [H Hu].
  apply andb_true_iff in H. destruct H as [C Hl].
  destruct (concrete_parts i C) as (K & Sl & Su & L).
  destruct i as [k l u]. cbn in *. subst k.
  exists l, u. repeat split; try assumption.
  - destruct (eq_PInfinity l); [discriminate | reflexivity].
  - destruct (eq_NInfinity u); [discriminate | reflexivity].
Qed.

Lemma proper_not_Empty (l u : Z) :
  eq_PInfinity l = false ->
  Empty {| known := true; lower := l; upper := u |} = false.
Proof. intro H. unfold Empty; cbn. rewrite H. reflexivity. Qed.

Lemma Add_lower_bound (l1 l2 : Z) :
  Z_shape l1 -> Z_shape l2 ->
  eq_PInfinity l1 = false -> eq_PInfinity l2 = false ->
  exists r, Z_Add l1 l2 = Ok r /\ Z_shape r
            /\ forall x y, Z_leb l1 (finite x) = true ->
                           Z_leb l2 (finite y) = true ->
                           Z_leb r (finite (x + y)) = true.
Proof.
  intros [a| |] [c| |] N1 N2; try discriminate.
  - exists (finite (a + c)).
    split; [apply (Add_finite (finite a) c); constructor|].
    split; [constructor|]. intros x y. by_shape.
  - exists NInfinity. split; [reflexivity|]. split; [constructor|].
    reflexivity.
  - exists NInfinity. split; [apply (Add_finite NInfinity c); constructor|].
    split; [constructor|]. reflexivity.
  - exists NInfinity. split; [reflexivity|]. split; [constructor|].
    reflexivity.
Qed.

Lemma Add_upper_bound (u1 u2 : Z) :
  Z_shape u1 -> Z_shape u2 ->
  eq_NInfinity u1 = false -> eq_NInfinity u2 = false ->
  exists r, Z_Add u1 u2 = Ok r /\ Z_shape r
            /\ forall x y, Z_leb (finite x) u1 = true ->
                           Z_leb (finite y) u2 = true ->
                           Z_leb (finite (x + y)) r = true.
Proof.
  intros [a| |] [c| |] N1 N2; try discriminate.
  - exists (finite (a + c)).
    split; [apply (Add_finite (finite a) c); constructor|].
    split; [constructor|]. intros x y. by_shape.
  - exists PInfinity. split; [reflexivity|]. split; [constructor|].
    reflexivity.
  - exists PInfinity. split; [apply PInfinity_Add_finite|].
    split; [constructor|]. reflexivity.
  - exists PInfinity. split; [reflexivity|]. split; [constructor|].
    reflexivity.
Qed.

Lemma Sub_lower_bound (l1 u2 : Z) :
  Z_shape l1 -> Z_shape u2 ->
  eq_PInfinity l1 = false -> eq_NInfinity u2 = false ->
  exists r, Z_Sub l1 u2 = Ok r /\ Z_shape r
            /\ forall x y, Z_leb l1 (finite x) = true ->
                           Z_leb (finite y) u2 = true ->
                           Z_leb r (finite (x - y)) = true.
Proof.
  intros [a| |] [c| |] N1 N2; try discriminate.
  - exists (finite (a - c)). split; [apply Sub_finite|].
    split; [constructor|]. intros x y. by_shape.
  - exists NInfinity. split; [reflexivity|]. split; [constructor|].
    reflexivity.
  - exists NInfinity. split; [unfold Z_Sub; cbn; sign_cases|].
    split; [constructor|]. reflexivity.
  - exists NInfinity. split; [reflexivity|]. split; [constructor|].
    reflexivity.
Qed.

Lemma Sub_upper_bound (u1 l2 : Z) :
  Z_shape u1 -> Z_shape l2 ->
  eq_NInfinity u1 = false -> eq_PInfinity l2 = false ->
  exists r, Z_Sub u1 l2 = Ok r /\ Z_shape r
            /\ forall x y, Z_leb (finite x) u1 = true ->
                           Z_leb l2 (finite y) = true ->
                           Z_leb (finite (x - y)) r = true.
Proof.
  intros [a| |] [c| |] N1 N2; try discriminate.
  - exists (finite (a - c)). split; [apply Sub_finite|].
    split; [constructor|]. intros x y. by_shape.
  - exists PInfinity. split; [reflexivity|]. split; [constructor|].
    reflexivity.
  - exists PInfinity. split; [unfold Z_Sub; cbn; sign_cases|].
    split; [constructor|]. reflexivity.
  - exists PInfinity. split; [reflexivity|]. split; [constructor|].
    reflexivity.
Qed.

Lemma contains_bounds (l u : Z) (x : int) :
  contains {| known := true; lower := l; upper := u |} x = true ->
  Z_leb l (finite x) = true /\ Z_leb (finite x) u = true.
Proof. rewrite contains_concrete. apply andb_true_iff. Qed.

Lemma normalized_contains_intro (l u : Z) (x : int) :
  Z_shape l -> Z_shape u ->
  Z_leb l (finite x) = true -> Z_leb (finite x) u = true ->
  contains (if Z_leb l u
            then {| known := true; lower := l; upper := u |}
            else EmptyI) x = true.
Proof.
  intros Hl Hu H1 H2. rewrite (normalized_contains l u x Hl Hu), H1, H2.
  reflexivity.
Qed.

(** Property X14.  [Add] of two proper intervals never panics, also when their bounds are
    infinite, and is sound: the sum of a value of the first and a value of
    the second lies in the result. *)
Theorem Interval_Add_sound (i1 i2 : Interval) :
  proper i1 = true -> proper i2 = true ->
  exists i, Interval_Add i1 i2 = Ok i /\ Interval_valid i = true
            /\ forall x y, contains i1 x = true -> contains i2 y = true ->
                           contains i (x + y) = true.
Proof.
  intros P1 P2.
  destruct (proper_parts i1 P1) as (l1 & u1 & -> & Sl1 & Su1 & L1 & Nl1 & Nu1).
  destruct (proper_parts i2 P2) as (l2 & u2 & -> & Sl2 & Su2 & L2 & Nl2 & Nu2).
  destruct (Add_lower_bound l1 l2 Sl1 Sl2 Nl1 Nl2) as (l & El & Sl & Hl).
  destruct (Add_upper_bound u1 u2 Su1 Su2 Nu1 Nu2) as (u & Eu & Su & Hu).
  unfold Interval_Add.
  rewrite (proper_not_Empty l1 u1 Nl1), (proper_not_Empty l2 u2 Nl2).
  cbn [orb lower upper]. rewrite El, Eu. cbn [bind].
  rewrite (NewInterval_valid l u Sl Su).
  eexists. split; [reflexivity|].
  split; [apply normalized_valid; assumption|].
  intros x y Hx Hy.
  apply contains_bounds in Hx, Hy. destruct Hx, Hy.
  apply normalized_contains_intro; auto.
Qed.

Lemma Interval_Add_sound_witness :
  exists i, Interval_Add {| known := true; lower := NInfinity; upper := finite 5 |}
                         (closed (-1) 3) = Ok i
            /\ Interval_valid i = true
            /\ forall x y,
                 contains {| known := true; lower := NInfinity; upper := finite 5 |} x
                 = true ->
                 contains (closed (-1) 3) y = true ->
                 contains i (x + y) = true.
Proof.
  apply (Interval_Add_sound
           {| known := true; lower := NInfinity; upper := finite 5 |}
           (closed (-1) 3)); reflexivity.
Defined.

(** Property X15.  [Sub] of two proper intervals never panics and is sound: the
    difference of a value of the first and a value of the second lies in
    the result. *)
Theorem Interval_Sub_sound (i1 i2 : Interval) :
  proper i1 = true -> proper i2 = true ->
  exists i, Interval_Sub i1 i2 = Ok i /\ Interval_valid i = true
            /\ forall x y, contains i1 x = true -> contains i2 y = true ->
                           contains i (x - y) = true.
Proof.
  intros P1 P2.
  destruct (proper_parts i1 P1) as (l1 & u1 & -> & Sl1 & Su1 & L1 & Nl1 & Nu1).
  destruct (proper_parts i2 P2) as (l2 & u2 & -> & Sl2 & Su2 & L2 & Nl2 & Nu2).
  destruct (Sub_lower_bound l1 u2 Sl1 Su2 Nl1 Nu2) as (l & El & Sl & Hl).
  destruct (Sub_upper_bound u1 l2 Su1 Sl2 Nu1 Nl2) as (u & Eu & Su & Hu).
  unfold Interval_Sub.
  rewrite (proper_not_Empty l1 u1 Nl1), (proper_not_Empty l2 u2 Nl2).
  cbn [orb lower upper]. rewrite El, Eu. cbn [bind].
  rewrite (NewInterval_valid l u Sl Su).
  eexists. split; [reflexivity|].
  split; [apply normalized_valid; assumption|].
  intros x y Hx Hy.
  apply contains_bounds in Hx, Hy. destruct Hx, Hy.
  apply normalized_contains_intro; auto.
Qed.

Lemma Interval_Sub_sound_witness :
  exists i, Interval_Sub (closed 2 5)
                         {| known := true; lower := finite 0; upper := PInfinity |}
            = Ok i
            /\ Interval_valid i = true
            /\ forall x y,
                 contains (closed 2 5) x = true ->
                 contains {| known := true; lower := finite 0; upper := PInfinity |} y
                 = true ->
                 contains i (x - y) = true.
Proof.
  apply (Interval_Sub_sound (closed 2 5)
           {| known := true; lower := finite 0; upper := PInfinity |});
    reflexivity.
Defined.

(* a product with an infinity: zero absorbs, else the sign decides *)
Lemma Mul_PInfinity_finite (v : int) :
  Z_Mul PInfinity (finite v)
  = Ok (if v =? 0 then finite 0 else if 0 <? v then PInfinity else NInfinity).
Proof. destruct v; reflexivity. Qed.

Lemma Mul_NInfinity_finite (v : int) :
  Z_Mul NInfinity (finite v)
  = Ok (if v =? 0 then finite 0 else if 0 <? v then NInfinity else PInfinity).
Proof. destruct v; reflexivity. Qed.

Lemma Mul_finite_PInfinity (v : int) :
  Z_Mul (finite v) PInfinity
  = Ok (if v =? 0 then finite 0 else if 0 <? v then PInfinity else NInfinity).
Proof. destruct v; reflexivity. Qed.

Lemma Mul_finite_NInfinity (v : int) :
  Z_Mul (finite v) NInfinity
  = Ok (if v =? 0 then finite 0 else if 0 <? v then NInfinity else PInfinity).
Proof. destruct v; reflexivity. Qed.

Lemma Mul_infinities :
  Z_Mul PInfinity PInfinity = Ok PInfinity
  /\ Z_Mul PInfinity NInfinity = Ok NInfinity
  /\ Z_Mul NInfinity PInfinity = Ok NInfinity
  /\ Z_Mul NInfinity NInfinity = Ok PInfinity.
Proof. repeat split. Qed.

Ltac mul_rewrite :=
  repeat first
    [ rewrite Mul_finite in *
    | rewrite Mul_PInfinity_finite in *
    | rewrite Mul_NInfinity_finite in *
    | rewrite Mul_finite_PInfinity in *
    | rewrite Mul_finite_NInfinity in *
    | rewrite (proj1 Mul_infinities) in *
    | rewrite (proj1 (proj2 Mul_infinities)) in *
    | rewrite (proj1 (proj2 (proj2 Mul_infinities))) in *
    | rewrite (proj2 (proj2 (proj2 Mul_infinities))) in * ].

Lemma Z_leb_finite (a b : int) : Z_leb (finite a) (finite b) = (a <=? b).
Proof.
  unfold Z_leb, Z_Cmp; cbn.
  destruct (Z.compare_spec a b); cbn; symmetry;
    [apply Z.leb_le | apply Z.leb_le | apply Z.leb_gt]; lia.
Qed.

Lemma Z_leb_infinities (a : int) :
  Z_leb NInfinity (finite a) = true /\ Z_leb (finite a) PInfinity = true
  /\ Z_leb PInfinity (finite a) = false /\ Z_leb (finite a) NInfinity = false
  /\ Z_leb NInfinity NInfinity = true /\ Z_leb NInfinity PInfinity = true
  /\ Z_leb PInfinity PInfinity = true /\ Z_leb PInfinity NInfinity = false.
Proof. repeat split. Qed.

Ltac leb_rewrite :=
  repeat first
    [ rewrite Z_leb_finite in *
    | rewrite (proj1 (Z_leb_infinities _)) in *
    | rewrite (proj1 (proj2 (Z_leb_infinities _))) in *
    | rewrite (proj1 (proj2 (proj2 (Z_leb_infinities _)))) in *
    | rewrite (proj1 (proj2 (proj2 (proj2 (Z_leb_infinities _))))) in *
    | rewrite (proj1 (proj2 (proj2 (proj2 (proj2 (Z_leb_infinities 0)))))) in *
    | rewrite (proj1 (proj2 (proj2 (proj2 (proj2 (proj2
                 (Z_leb_infinities 0))))))) in *
    | rewrite (proj1 (proj2 (proj2 (proj2 (proj2 (proj2 (proj2
                 (Z_leb_infinities 0)))))))) in *
    | rewrite (proj2 (proj2 (proj2 (proj2 (proj2 (proj2 (proj2
                 (Z_leb_infinities 0)))))))) in * ].

Ltac mul_arith :=
  repeat match goal with
         | |- context [?v =? 0] => destruct (Z.eqb_spec v 0)
         | |- context [0 <? ?v] => destruct (Z.ltb_spec 0 v)
         end;
  leb_rewrite;
  repeat match goal with
         | |- context [?a <=? ?b] => destruct (Z.leb_spec a b)
         | H : context [?a <=? ?b] |- _ => destruct (Z.leb_spec a b)
         end;
  cbn [orb andb negb] in *;
  try discriminate; try (split; reflexivity); try nia;
  try match goal with
      | v : BinNums.Z |- _ => destruct (Z.le_gt_cases 0 v); nia
      end.

(** Between two bounds [c <= y <= d], the product of any [z] with [y] lies
    between the products of [z] with the bounds, in one order or the
    other. *)
Lemma Mul_between (z c d : Z) (y : int) (pc pd py : Z) :
  Z_shape z -> Z_shape c -> Z_shape d ->
  Z_leb c (finite y) = true -> Z_leb (finite y) d = true ->
  Z_Mul z c = Ok pc -> Z_Mul z d = Ok pd -> Z_Mul z (finite y) = Ok py ->
  Z_leb pc py || Z_leb pd py = true /\ Z_leb py pc || Z_leb py pd = true.
Proof.
  intros [a| |] [c'| |] [d'| |] Hc Hd Ec Ed Ey;
    try discriminate Hc; try discriminate Hd;
    mul_rewrite;
    injection Ec as <-; injection Ed as <-; injection Ey as <-;
    mul_arith.
Qed.

(** Property X16.  [Mul] of two concrete intervals never panics and is sound, under sign
    changes and with infinite bounds: the product of a value of the first
    and a value of the second lies in the result. *)
Theorem Interval_Mul_sound (i1 i2 : Interval) :
  concrete i1 = true -> concrete i2 = true ->
  exists i, Interval_Mul i1 i2 = Ok i /\ Interval_valid i = true
            /\ known i = true
            /\ forall x y, contains i1 x = true -> contains i2 y = true ->
                           contains i (x * y) = true.
Proof.
  intros C1 C2.
  destruct (concrete_parts _ C1) as (K1 & Hl1 & Hu1 & L1).
  destruct (concrete_parts _ C2) as (K2 & Hl2 & Hu2 & L2).
  destruct i1 as [k1 l1 u1], i2 as [k2 l2 u2]. cbn in *. subst k1 k2.
  destruct (Mul_shape l1 l2 Hl1 Hl2) as (p11 & E11 & S11).
  destruct (Mul_shape l1 u2 Hl1 Hu2) as (p12 & E12 & S12).
  destruct (Mul_shape u1 l2 Hu1 Hl2) as (p21 & E21 & S21).
  destruct (Mul_shape u1 u2 Hu1 Hu2) as (p22 & E22 & S22).
  assert (Hps : Forall Z_shape [p11; p12; p21; p22])
    by (repeat constructor; assumption).
  destruct (Min_spec [p11; p12; p21; p22]) as (lo & Elo & Slo & _ & Alo);
    [discriminate | assumption |].
  destruct (Max_spec [p11; p12; p21; p22]) as (hi & Ehi & Shi & _ & Ahi);
    [discriminate | assumption |].
  inversion Alo as [|? ? Lo11 Alo1]; inversion Alo1 as [|? ? Lo12 Alo2];
    inversion Alo2 as [|? ? Lo21 Alo3]; inversion Alo3 as [|? ? Lo22 _]; subst.
  inversion Ahi as [|? ? Hi11 Ahi1]; inversion Ahi1 as [|? ? Hi12 Ahi2];
    inversion Ahi2 as [|? ? Hi21 Ahi3]; inversion Ahi3 as [|? ? Hi22 _]; subst.
  assert (Hle : Z_leb lo hi = true)
    by (apply (Z_leb_trans lo p11 hi); assumption).
  exists {| known := true; lower := lo; upper := hi |}.
  split.
  { unfold Interval_Mul.
    rewrite (concrete_not_Empty _ _ L1), (concrete_not_Empty _ _ L2).
    cbn [orb lower upper]. unfold corner_products.
    rewrite E11, E12, E21, E22. cbn [bind]. rewrite Elo, Ehi. cbn [bind].
    rewrite (NewInterval_valid _ _ Slo Shi), Hle. reflexivity. }
  split; [apply concrete_valid; assumption|].
  split; [reflexivity|].
  intros x y Hx Hy.
  apply contains_bounds in Hx, Hy.
  destruct Hx as [Hx1 Hx2], Hy as [Hy1 Hy2].
  destruct (Mul_shapes l1 (finite y) Hl1 (shape_finite y))
    as (q1 & _ & _ & Eq1 & Eq1' & Sq1 & _).
  destruct (Mul_shapes u1 (finite y) Hu1 (shape_finite y))
    as (q2 & _ & _ & Eq2 & Eq2' & Sq2 & _).
  assert (Sxy : Z_shape (finite (x * y))) by constructor.
  assert (Exy : Z_Mul (finite y) (finite x) = Ok (finite (x * y)))
    by (rewrite Mul_finite; apply finite_eq; lia).
  destruct (Mul_between (finite y) l1 u1 x q1 q2 (finite (x * y))
              (shape_finite y) Hl1 Hu1 Hx1 Hx2 Eq1' Eq2' Exy) as [Bl Bu].
  destruct (Mul_between l1 l2 u2 y p11 p12 q1 Hl1 Hl2 Hu2 Hy1 Hy2 E11 E12 Eq1)
    as [B1l B1u].
  destruct (Mul_between u1 l2 u2 y p21 p22 q2 Hu1 Hl2 Hu2 Hy1 Hy2 E21 E22 Eq2)
    as [B2l B2u].
  rewrite contains_concrete. apply andb_true_iff. split.
  - apply orb_true_iff in Bl. destruct Bl as [Bl|Bl].
    + apply orb_true_iff in B1l. destruct B1l as [B|B].
      * apply (Z_leb_trans lo q1 _ Slo Sq1 Sxy); [|assumption].
        apply (Z_leb_trans lo p11 q1); assumption.
      * apply (Z_leb_trans lo q1 _ Slo Sq1 Sxy); [|assumption].
        apply (Z_leb_trans lo p12 q1); assumption.
    + apply orb_true_iff in B2l. destruct B2l as [B|B].
      * apply (Z_leb_trans lo q2 _ Slo Sq2 Sxy); [|assumption].
        apply (Z_leb_trans lo p21 q2); assumption.
      * apply (Z_leb_trans lo q2 _ Slo Sq2 Sxy); [|assumption].
        apply (Z_leb_trans lo p22 q2); assumption.
  - apply orb_true_iff in Bu. destruct Bu as [Bu|Bu].
    + apply orb_true_iff in B1u. destruct B1u as [B|B].
      * apply (Z_leb_trans _ q1 hi Sxy Sq1 Shi); [assumption|].
        apply (Z_leb_trans q1 p11 hi); assumption.
      * apply (Z_leb_trans _ q1 hi Sxy Sq1 Shi); [assumption|].
        apply (Z_leb_trans q1 p12 hi); assumption.
    + apply orb_true_iff in B2u. destruct B2u as [B|B].
      * apply (Z_leb_trans _ q2 hi Sxy Sq2 Shi); [assumption|].
        apply (Z_leb_trans q2 p21 hi); assumption.
      * apply (Z_leb_trans _ q2 hi Sxy Sq2 Shi); [assumption|].
        apply (Z_leb_trans q2 p22 hi); assumption.
Qed.

Lemma Interval_Mul_sound_witness :
  exists i, Interval_Mul {| known := true; lower := NInfinity; upper := finite 2 |}
                         (closed (-3) 4) = Ok i
            /\ Interval_valid i = true /\ known i = true
            /\ forall x y,
                 contains {| known := true; lower := NInfinity; upper := finite 2 |} x
                 = true ->
                 contains (closed (-3) 4) y = true ->
                 contains i (x * y) = true.
Proof.
  apply (Interval_Mul_sound
           {| known := true; lower := NInfinity; upper := finite 2 |}
           (closed (-3) 4)); reflexivity.
Defined.

(** ** Resolution of a future intersection *)

Lemma Resolve_run (c : FutureIntersectionConstraint.t) (g : Graph) :
  FutureIntersectionConstraint.Resolve c g =
  match resolved_bound c with
  | Ok i => (Ok tt, (FutureIntersectionConstraint.set_I i c, g))
  | Abort p => (Abort p, (c, g))
  end.
Proof.
  unfold FutureIntersectionConstraint.Resolve, resolved_bound, mbind, self,
    lift, mret, assign, bind.
  destruct (FutureIntersectionConstraint.lower c) as [vl|];
    destruct (FutureIntersectionConstraint.upper c) as [vu|];
    repeat (match goal with
            | |- context [FutureIntersectionConstraint.range_or_infinity ?m ?v] =>
                destruct (FutureIntersectionConstraint.range_or_infinity m v)
            | |- context [assert_Interval ?r] => destruct (assert_Interval r)
            | |- context [Z_Add ?a ?b] => destruct (Z_Add a b)
            | |- context [NewInterval ?a ?b] => destruct (NewInterval a b)
            end; cbv beta iota);
    reflexivity.
Qed.

Lemma set_I_same (c : FutureIntersectionConstraint.t) :
  FutureIntersectionConstraint.set_I (FutureIntersectionConstraint.I c) c = c.
Proof. destruct c; reflexivity. Qed.

(** Property X21.  [Resolve] writes the field [I] and nothing else: the graph, the
    [resolved] marker and every other field are as before, and nothing at
    all is written when it panics. *)
Theorem Resolve_writes_only_I (c : FutureIntersectionConstraint.t) (g : Graph) :
  snd (snd (FutureIntersectionConstraint.Resolve c g)) = g
  /\ (exists i, fst (snd (FutureIntersectionConstraint.Resolve c g))
                = FutureIntersectionConstraint.set_I i c)
  /\ FutureIntersectionConstraint.resolved
       (fst (snd (FutureIntersectionConstraint.Resolve c g)))
     = FutureIntersectionConstraint.resolved c
  /\ (fst (FutureIntersectionConstraint.Resolve c g) = Ok tt
      \/ fst (snd (FutureIntersectionConstraint.Resolve c g)) = c).
Proof.
  rewrite Resolve_run. destruct (resolved_bound c) as [i|p]; cbn.
  - split; [reflexivity|]. split; [exists i; reflexivity|].
    split; [reflexivity|]. left. reflexivity.
  - split; [reflexivity|].
    split; [exists (FutureIntersectionConstraint.I c); symmetry;
            apply set_I_same|].
    split; [reflexivity|]. right. reflexivity.
Qed.

(** A second [Resolve] changes nothing: run on what the first one left, it
    returns the same result and leaves the same state. *)
Theorem Resolve_idempotent (c : FutureIntersectionConstraint.t) (g : Graph) :
  FutureIntersectionConstraint.Resolve
    (fst (snd (FutureIntersectionConstraint.Resolve c g)))
    (snd (snd (FutureIntersectionConstraint.Resolve c g)))
  = FutureIntersectionConstraint.Resolve c g.
Proof.
  rewrite (Resolve_run c g). destruct (resolved_bound c) as [i|p] eqn:E;
    cbn [fst snd].
  - rewrite Resolve_run.
    change (resolved_bound (FutureIntersectionConstraint.set_I i c))
      with (resolved_bound c).
    rewrite E. reflexivity.
  - rewrite Resolve_run, E. reflexivity.
Qed.

Lemma range_or_infinity_agree (m m' : Ranges) (v : ssa.Value) :
  Ranges_get m' v = Ranges_get m v ->
  FutureIntersectionConstraint.range_or_infinity m' v
  = FutureIntersectionConstraint.range_or_infinity m v.
Proof.
  intro H. unfold FutureIntersectionConstraint.range_or_infinity.
  rewrite H. reflexivity.
Qed.

(** Property X22.  [Resolve] looks up [ranges] only at the values [Futures] lists: over a
    map that agrees with [ranges] on them it returns the same result and
    assigns the same bound. *)
Theorem Resolve_reads_only_Futures (c : FutureIntersectionConstraint.t)
    (m' : Ranges) (g : Graph) :
  (forall v, In v (FutureIntersectionConstraint.Futures c) ->
             Ranges_get m' v
             = Ranges_get (FutureIntersectionConstraint.ranges c) v) ->
  fst (FutureIntersectionConstraint.Resolve (set_ranges m' c) g)
  = fst (FutureIntersectionConstraint.Resolve c g)
  /\ FutureIntersectionConstraint.I
       (fst (snd (FutureIntersectionConstraint.Resolve (set_ranges m' c) g)))
     = FutureIntersectionConstraint.I
         (fst (snd (FutureIntersectionConstraint.Resolve c g))).
Proof.
  intro H.
  assert (E : resolved_bound (set_ranges m' c) = resolved_bound c).
  { unfold resolved_bound, set_ranges; cbn.
    unfold FutureIntersectionConstraint.Futures in H.
    destruct (FutureIntersectionConstraint.lower c) as [vl|];
      destruct (FutureIntersectionConstraint.upper c) as [vu|];
      repeat rewrite (range_or_infinity_agree
                        (FutureIntersectionConstraint.ranges c) m')
        by (apply H; cbn; tauto);
      reflexivity. }
  rewrite !Resolve_run, E.
  destruct (resolved_bound c); split; reflexivity.
Qed.

Lemma Resolve_reads_only_Futures_witness :
  fst (FutureIntersectionConstraint.Resolve
         (set_ranges
            [(value 7 types.Int, IntervalRange EmptyI);
             (value 1 types.Int, IntervalRange (closed 0 10))] below_v)
         (graph_of []))
  = fst (FutureIntersectionConstraint.Resolve below_v (graph_of []))
  /\ FutureIntersectionConstraint.I
       (fst (snd (FutureIntersectionConstraint.Resolve
                    (set_ranges
                       [(value 7 types.Int, IntervalRange EmptyI);
                        (value 1 types.Int, IntervalRange (closed 0 10))]
                       below_v)
                    (graph_of []))))
     = FutureIntersectionConstraint.I
         (fst (snd (FutureIntersectionConstraint.Resolve below_v (graph_of [])))).
Proof.
  apply (Resolve_reads_only_Futures below_v).
  intros v [<- | []]. reflexivity.
Defined.

Lemma Add_zero_value_finite (k : int) :
  Z_Add Z_zero_value (finite k) = Abort NilDereference.
Proof. unfold Z_Add. cbn. sign_cases. Qed.

(** Property X23.  [Resolve] panics with a nil dereference when the first dependency it
    reads has the unknown interval as its entry in [ranges] and a finite
    offset: the bounds of the unknown interval hold no integer. *)
Theorem Resolve_unknown_dependency_panics
    (c : FutureIntersectionConstraint.t) (g : Graph) (v : ssa.Value)
    (k : int) :
  Ranges_get (FutureIntersectionConstraint.ranges c) v
  = Some (IntervalRange Interval_zero_value) ->
  (FutureIntersectionConstraint.lower c = Some v
   /\ FutureIntersectionConstraint.lowerOffset c = finite k)
  \/ (FutureIntersectionConstraint.lower c = None
      /\ FutureIntersectionConstraint.upper c = Some v
      /\ FutureIntersectionConstraint.upperOffset c = finite k) ->
  FutureIntersectionConstraint.Resolve c g = (Abort NilDereference, (c, g)).
Proof.
  intros Hr H. rewrite Resolve_run. unfold resolved_bound.
  destruct H as [[Hl Ho] | (Hl & Hu & Ho)].
  - rewrite Hl, Ho. unfold FutureIntersectionConstraint.range_or_infinity.
    rewrite Hr. cbn [bind assert_Interval lower Interval_zero_value].
    rewrite Add_zero_value_finite. reflexivity.
  - rewrite Hl, Hu, Ho. unfold FutureIntersectionConstraint.range_or_infinity.
    rewrite Hr. cbn [bind assert_Interval upper Interval_zero_value].
    rewrite Add_zero_value_finite. reflexivity.
Qed.

Lemma Resolve_unknown_dependency_panics_witness :
  let c := set_ranges [(value 1 types.Int, IntervalRange Interval_zero_value)]
             below_v in
  FutureIntersectionConstraint.Resolve c (graph_of [])
  = (Abort NilDereference, (c, graph_of [])).
Proof.
  cbv zeta.
  apply (Resolve_unknown_dependency_panics _ _ (value 1 types.Int) (-1)).
  - reflexivity.
  - right. repeat split.
Defined.

(** ** Evaluation of constraints *)

Ltac run_method :=
  unfold Eval, dispatch, ArithmeticConstraint.Eval,
    IntConversionConstraint.Eval, FutureIntersectionConstraint.Eval,
    IntersectionConstraint.Eval, IntervalConstraint.Eval,
    mbind, self, g_Range, lift, mret.

(** [Eval] panics on a failed type assertion, and writes nothing, as soon
    as the graph holds a range that is not an [Interval] for one of the
    operands of the constraint. *)
Theorem Eval_other_range_panics (c : Constraint) (g : Graph) (v : ssa.Value) :
  In v (Operands c) -> Graph_Range g v = OtherRange ->
  Eval c g = (Abort InterfaceConversion, (c, g)).
Proof.
  intros Hin Hv.
  destruct c as [a|a|a|a|a|a|a]; cbn in Hin;
    try (destruct Hin as [<- | [<- | []]]);
    try (destruct Hin as [<- | []]);
    try contradiction;
    run_method; try rewrite Hv; cbn;
    try reflexivity;
    destruct (Graph_Range g (ArithmeticConstraint.A a)); reflexivity.
Qed.

Lemma Eval_other_range_panics_witness :
  let g := {| Graph_Range := fun _ => OtherRange |} in
  let c := NewAddConstraint (value 0 types.Int) (value 1 types.Int)
             (value 2 types.Int) in
  Eval c g = (Abort InterfaceConversion, (c, g)).
Proof.
  cbv zeta.
  apply (Eval_other_range_panics _ _ (value 1 types.Int)).
  - right. left. reflexivity.
  - reflexivity.
Defined.

Section SameResult.

Variables g g' : Graph.

Lemma same_mret {C A : Type} (c : C) (a : A) :
  same_result g g' c (@mret C A a).
Proof. repeat split. Qed.

Lemma same_lift {C A : Type} (c : C) (r : Result A) :
  same_result g g' c (@lift C A r).
Proof. repeat split. Qed.

Lemma same_self {C : Type} (c : C) : same_result g g' c (@self C).
Proof. repeat split. Qed.

Lemma same_g_Range {C : Type} (c : C) (v : ssa.Value) :
  Graph_Range g v = Graph_Range g' v -> same_result g g' c (@g_Range C v).
Proof. intros H. unfold same_result, g_Range. cbn. rewrite H. repeat split. Qed.

Lemma same_mbind {C A B : Type} (c : C) (m : Method C A)
    (f : A -> Method C B) :
  same_result g g' c m ->
  (forall a, fst (m c g) = Ok a -> same_result g g' c (f a)) ->
  same_result g g' c (mbind m f).
Proof.
  intros (E & S1 & S2) Hf. unfold same_result, mbind.
  destruct (m c g) as [r1 [c1 g1]], (m c g') as [r2 [c2 g2]].
  cbn in E, S1, S2. injection S1 as -> ->. injection S2 as -> ->. subst r2.
  destruct r1 as [a|p]; [apply Hf; reflexivity | repeat split].
Qed.

Lemma same_dispatch {C A : Type} (wrap : C -> Constraint)
    (m : Method C A) (c : C) :
  same_result g g' c m ->
  fst (dispatch wrap m c g) = fst (dispatch wrap m c g').
Proof.
  intros (E & _ & _). unfold dispatch.
  destruct (m c g) as [r1 [c1 g1]], (m c g') as [r2 [c2 g2]]. exact E.
Qed.

End SameResult.

Ltac same_reads H :=
  repeat first
    [ apply same_mret | apply same_lift | apply same_self
    | apply same_g_Range; apply H; cbn; tauto
    | apply same_mbind;
      [| let a := fresh "a" in
         let E := fresh "E" in
         intros a E; try (cbn in E; injection E as <-) ]
    | match goal with
      | |- same_result _ _ _ (if ?b then _ else _) => destruct b
      end ].

(** Property X24.  The result of [Eval] depends on the graph only through the ranges of
    the operands of the constraint and, for a conversion, of its own
    target: two graphs that agree on these give the same result. *)
Theorem Eval_reads_only_operands (c : Constraint) (g g' : Graph) :
  (forall v, In v (Eval_reads c) -> Graph_Range g v = Graph_Range g' v) ->
  fst (Eval c g) = fst (Eval c g').
Proof.
  intro H.
  destruct c as [a|a|a|a|a|a|a]; unfold Eval; apply same_dispatch;
    unfold ArithmeticConstraint.Eval, IntConversionConstraint.Eval,
      FutureIntersectionConstraint.Eval, IntersectionConstraint.Eval,
      IntervalConstraint.Eval;
    cbn zeta; same_reads H.
Qed.

Lemma Eval_reads_only_operands_witness :
  fst (Eval (Leaf {| IntervalConstraint.y := value 0 types.Int;
                     IntervalConstraint.I := closed 1 2 |})
            (graph_of []))
  = fst (Eval (Leaf {| IntervalConstraint.y := value 0 types.Int;
                       IntervalConstraint.I := closed 1 2 |})
              (graph_of [(value 0 types.Int, IntervalRange EmptyI)])).
Proof.
  apply (Eval_reads_only_operands
           (Leaf {| IntervalConstraint.y := value 0 types.Int;
                    IntervalConstraint.I := closed 1 2 |})).
  intros v [].
Defined.

(** Property X25.  An intersection constraint and a future intersection constraint with
    the same source and the same bound evaluate to the same result: the
    test for an unknown source that only the former makes changes
    nothing. *)
Theorem Intersection_constraints_agree (ic : IntersectionConstraint.t)
    (fc : FutureIntersectionConstraint.t) (g : Graph) :
  IntersectionConstraint.X ic = FutureIntersectionConstraint.X fc ->
  IntersectionConstraint.I ic = FutureIntersectionConstraint.I fc ->
  fst (IntersectionConstraint.Eval ic g)
  = fst (FutureIntersectionConstraint.Eval fc g).
Proof.
  intros HX HI. run_method. rewrite HX, HI.
  destruct (Graph_Range g (FutureIntersectionConstraint.X fc)) as [xi|];
    cbn [assert_Interval]; cbv beta iota; [|reflexivity].
  unfold IsKnown. destruct (known xi) eqn:Kx; cbn [negb].
  - destruct (Interval_Intersection xi (FutureIntersectionConstraint.I fc));
      reflexivity.
  - unfold Interval_Intersection, IsKnown. rewrite Kx. reflexivity.
Qed.

Lemma Intersection_constraints_agree_witness :
  fst (IntersectionConstraint.Eval
         {| IntersectionConstraint.y := value 2 types.Int;
            IntersectionConstraint.X := value 0 types.Int;
            IntersectionConstraint.I := Interval_zero_value |}
         (graph_of []))
  = fst (FutureIntersectionConstraint.Eval below_v (graph_of [])).
Proof.
  apply (Intersection_constraints_agree
           {| IntersectionConstraint.y := value 2 types.Int;
              IntersectionConstraint.X := value 0 types.Int;
              IntersectionConstraint.I := Interval_zero_value |}
           below_v); reflexivity.
Defined.

(** Property X26.  [Eval] of an intersection constraint with a known bound [I] narrows:
    the result holds exactly the values of [I] that the source range
    allows, all of [I] while the source range is unknown. *)
Theorem Intersection_Eval_narrows (c : IntersectionConstraint.t) (g : Graph)
    (xi : Interval) :
  Graph_Range g (IntersectionConstraint.X c) = IntervalRange xi ->
  Interval_valid xi = true ->
  Interval_valid (IntersectionConstraint.I c) = true ->
  known (IntersectionConstraint.I c) = true ->
  exists r, IntersectionConstraint.Eval c g = (Ok (IntervalRange r), (c, g))
            /\ Interval_valid r = true
            /\ forall x, contains r x
                         = (negb (known xi) || contains xi x)
                           && contains (IntersectionConstraint.I c) x.
Proof.
  intros Hg Vx VI KI. run_method. rewrite Hg.
  cbn [assert_Interval]; cbv beta iota. unfold IsKnown.
  destruct (known xi) eqn:Kx; cbn [negb orb].
  - destruct (Intersection_known xi (IntersectionConstraint.I c) Vx VI Kx KI)
      as (r & Er & Vr & _ & Hr).
    rewrite Er. exists r. auto.
  - exists (IntersectionConstraint.I c). auto.
Qed.

Lemma Intersection_Eval_narrows_witness :
  let c := {| IntersectionConstraint.y := value 2 types.Int;
              IntersectionConstraint.X := value 0 types.Int;
              IntersectionConstraint.I := closed 0 9 |} in
  let g := graph_of [(value 0 types.Int, IntervalRange (closed (-5) 50))] in
  exists r, IntersectionConstraint.Eval c g = (Ok (IntervalRange r), (c, g))
            /\ Interval_valid r = true
            /\ forall x, contains r x
                         = (negb (known (closed (-5) 50))
                            || contains (closed (-5) 50) x)
                           && contains (closed 0 9) x.
Proof.
  cbv zeta.
  apply (Intersection_Eval_narrows
           {| IntersectionConstraint.y := value 2 types.Int;
              IntersectionConstraint.X := value 0 types.Int;
              IntersectionConstraint.I := closed 0 9 |}); reflexivity.
Defined.

(** Evaluated before it is resolved, a future intersection constraint does
    not narrow at all: with its bound still the unknown zero value it
    returns the source range as it is. *)
Theorem Future_Eval_unresolved (c : FutureIntersectionConstraint.t)
    (g : Graph) (xi : Interval) :
  FutureIntersectionConstraint.I c = Interval_zero_value ->
  Graph_Range g (FutureIntersectionConstraint.X c) = IntervalRange xi ->
  Interval_valid xi = true ->
  FutureIntersectionConstraint.Eval c g = (Ok (IntervalRange xi), (c, g)).
Proof.
  intros HI Hg V. run_method. rewrite Hg, HI. cbn.
  destruct (Interval_valid_state xi V); reflexivity.
Qed.

Lemma Future_Eval_unresolved_witness :
  let g := graph_of [(value 0 types.Int, IntervalRange (closed (-5) 50))] in
  FutureIntersectionConstraint.Eval below_v g
  = (Ok (IntervalRange (closed (-5) 50)), (below_v, g)).
Proof.
  cbv zeta. apply (Future_Eval_unresolved below_v); reflexivity.
Defined.

(** Property X17.  [InfinityFor] never panics and gives the whole range of the type of a
    value: every finite value, or every value from 0 on when the type is
    an unsigned basic type; it is the maximal range only in the former
    case. *)
Theorem InfinityFor_range (v : ssa.Value) :
  exists i, InfinityFor v = Ok i /\ proper i = true
            /\ IsMaxRange i = negb (is_unsigned v)
            /\ forall x, contains i x = negb (is_unsigned v) || (0 <=? x).
Proof.
  unfold InfinityFor, is_unsigned.
  destruct (ssa.Type_ v) as [b|]; [destruct (types.IsUnsigned b)|];
    eexists; (split; [reflexivity|]); (split; [reflexivity|]);
    (split; [reflexivity|]); intro x; cbn [negb orb].
  - change (contains _ x)
      with (Z_leb (finite 0) (finite x) && Z_leb (finite x) PInfinity).
    rewrite Z_leb_finite. rewrite (proj1 (proj2 (Z_leb_infinities x))).
    apply andb_true_r.
  - reflexivity.
  - reflexivity.
Qed.

(** ** Integer conversion *)

Lemma Sizeof_positive (k : types.BasicKind) : 0 < types.Sizeof k.
Proof. destruct k; reflexivity. Qed.

Lemma max_of_width_value (n : int) :
  0 <= n ->
  IntConversionConstraint.max_of_width n = Ok (Some (2 ^ (8 * n) - 1)).
Proof.
  intro H. unfold IntConversionConstraint.max_of_width; cbn.
  rewrite Z.shiftl_1_l. replace (n * 8) with (8 * n) by lia. reflexivity.
Qed.

Lemma Conversion_Eval_run (c : IntConversionConstraint.t) (g : Graph)
    (fromI toI : Interval) (fromT toT : types.BasicKind) :
  ssa.Type_ (IntConversionConstraint.X c) = types.Basic fromT ->
  ssa.Type_ (IntConversionConstraint.y c) = types.Basic toT ->
  Graph_Range g (IntConversionConstraint.X c) = IntervalRange fromI ->
  Graph_Range g (IntConversionConstraint.y c) = IntervalRange toI ->
  IntConversionConstraint.Eval c g =
  (if negb (known fromI) then Ok (IntervalRange toI)
   else if negb (known toI) then Ok (IntervalRange fromI)
   else if types.IsUnsigned fromT && (types.Sizeof toT >? types.Sizeof fromT)
   then
     n <- IntConversionConstraint.max_of_width (types.Sizeof fromT) ;;
     lo <- Max [NewZ big.zero; lower fromI] ;;
     hi <- Min [NewZ n; upper toI] ;;
     i <- NewInterval lo hi ;;
     Ok (IntervalRange i)
   else if negb (types.IsUnsigned fromT) && negb (types.IsUnsigned toT)
           && (types.Sizeof toT >? types.Sizeof fromT)
   then
     n <- IntConversionConstraint.max_of_width (types.Sizeof fromT) ;;
     lo <- Max [NInfinity; lower fromI] ;;
     hi <- Min [NewZ n; upper toI] ;;
     i <- NewInterval lo hi ;;
     Ok (IntervalRange i)
   else Ok (IntervalRange fromI),
   (c, g)).
Proof.
  intros HX Hy Hf Ht. run_method. rewrite Hf, Ht, HX, Hy.
  cbn [assert_Interval types.assert_Basic]; cbv beta iota zeta.
  unfold IsKnown, bind.
  destruct (negb (known fromI)); [reflexivity|].
  destruct (negb (known toI)); [reflexivity|].
  destruct (types.IsUnsigned fromT && (types.Sizeof toT >? types.Sizeof fromT)).
  - destruct (IntConversionConstraint.max_of_width _); [|reflexivity].
    cbv beta iota. destruct (Max _); [|reflexivity].
    cbv beta iota. destruct (Min _); [|reflexivity].
    cbv beta iota. destruct (NewInterval _ _); reflexivity.
  - destruct (negb (types.IsUnsigned fromT) && negb (types.IsUnsigned toT)
              && (types.Sizeof toT >? types.Sizeof fromT)); [|reflexivity].
    destruct (IntConversionConstraint.max_of_width _); [|reflexivity].
    cbv beta iota. destruct (Max _); [|reflexivity].
    cbv beta iota. destruct (Min _); [|reflexivity].
    cbv beta iota. destruct (NewInterval _ _); reflexivity.
Qed.

Lemma known_bounds_shapes (i : Interval) :
  Interval_valid i = true -> known i = true ->
  Z_shape (lower i) /\ Z_shape (upper i).
Proof.
  intros V K.
  destruct (known_states i V K) as [-> | (l & u & -> & Hl & Hu & _)];
    split; try assumption; constructor.
Qed.

(* the two widening rules, over the lower bound a that the rule starts from *)
Lemma widening_result (a l u : Z) (n : int) :
  Z_shape a -> Z_shape l -> Z_shape u ->
  exists r,
    (lo <- Max [a; l] ;;
     hi <- Min [finite n; u] ;;
     i <- NewInterval lo hi ;;
     Ok (IntervalRange i)) = Ok (IntervalRange r)
    /\ Interval_valid r = true
    /\ forall x, contains r x
                 = Z_leb a (finite x) && Z_leb l (finite x)
                   && ((x <=? n) && Z_leb (finite x) u).
Proof.
  intros Ha Hl Hu.
  rewrite (Max_pair a l Ha Hl). cbn [bind].
  rewrite (Min_pair (finite n) u (shape_finite n) Hu). cbn [bind].
  set (lo := if Z_leb l a then a else l).
  set (hi := if Z_leb (finite n) u then finite n else u).
  assert (Hlo : Z_shape lo) by (apply if_shape; assumption).
  assert (Hhi : Z_shape hi) by (apply if_shape; [constructor | assumption]).
  rewrite (NewInterval_valid lo hi Hlo Hhi). cbn [bind].
  eexists. split; [reflexivity|].
  split; [apply normalized_valid; assumption|].
  intro x. rewrite (normalized_contains lo hi x Hlo Hhi). subst lo hi.
  rewrite (leb_max_left a l (finite x)) by (assumption || constructor).
  rewrite (leb_min_right (finite n) u (finite x)) by (assumption || constructor).
  rewrite Z_leb_finite. reflexivity.
Qed.

(** Property X18.  Widening an unsigned source to a wider destination, both ranges known:
    [Eval] never panics and returns the values from 0 to the maximum of
    the source width that are at least the lower bound of the source range
    and at most the upper bound of the destination range.  The upper bound
    of the source range plays no part. *)
Theorem Conversion_unsigned_widening (c : IntConversionConstraint.t)
    (g : Graph) (fromI toI : Interval) (fromT toT : types.BasicKind) :
  ssa.Type_ (IntConversionConstraint.X c) = types.Basic fromT ->
  ssa.Type_ (IntConversionConstraint.y c) = types.Basic toT ->
  Graph_Range g (IntConversionConstraint.X c) = IntervalRange fromI ->
  Graph_Range g (IntConversionConstraint.y c) = IntervalRange toI ->
  Interval_valid fromI = true -> Interval_valid toI = true ->
  known fromI = true -> known toI = true ->
  types.IsUnsigned fromT = true ->
  types.Sizeof fromT < types.Sizeof toT ->
  exists r, IntConversionConstraint.Eval c g = (Ok (IntervalRange r), (c, g))
            /\ Interval_valid r = true
            /\ forall x, contains r x
                         = (0 <=? x) && Z_leb (lower fromI) (finite x)
                           && ((x <=? 2 ^ (8 * types.Sizeof fromT) - 1)
                               && Z_leb (finite x) (upper toI)).
Proof.
  intros HX Hy Hf Ht Vf Vt Kf Kt Hu Hw.
  rewrite (Conversion_Eval_run c g fromI toI fromT toT HX Hy Hf Ht).
  rewrite Kf, Kt, Hu. cbn [negb andb].
  assert (E : (types.Sizeof toT >? types.Sizeof fromT) = true)
    by (apply Z.gtb_lt; assumption).
  rewrite E.
  rewrite max_of_width_value by (pose proof (Sizeof_positive fromT); lia).
  cbn [bind].
  destruct (known_bounds_shapes fromI Vf Kf) as [Sl _].
  destruct (known_bounds_shapes toI Vt Kt) as [_ Su].
  destruct (widening_result (finite 0) (lower fromI) (upper toI)
              (2 ^ (8 * types.Sizeof fromT) - 1) (shape_finite 0) Sl Su)
    as (r & Er & Vr & Hr).
  change (NewZ big.zero) with (finite 0).
  change (NewZ (Some (2 ^ (8 * types.Sizeof fromT) - 1)))
    with (finite (2 ^ (8 * types.Sizeof fromT) - 1)).
  rewrite Er. exists r. split; [reflexivity|]. split; [assumption|].
  intro x. rewrite Hr, Z_leb_finite. reflexivity.
Qed.

Lemma Conversion_unsigned_widening_witness :
  let g := graph_of [(value 0 types.Uint8, IntervalRange (closed 3 10));
                     (value 1 types.Uint32, IntervalRange (closed 0 1000))] in
  exists r, IntConversionConstraint.Eval widen_uint8 g
            = (Ok (IntervalRange r), (widen_uint8, g))
            /\ Interval_valid r = true
            /\ forall x, contains r x
                         = (0 <=? x) && Z_leb (lower (closed 3 10)) (finite x)
                           && ((x <=? 2 ^ (8 * types.Sizeof types.Uint8) - 1)
                               && Z_leb (finite x) (upper (closed 0 1000))).
Proof.
  cbv zeta.
  apply (Conversion_unsigned_widening widen_uint8 _ (closed 3 10)
           (closed 0 1000) types.Uint8 types.Uint32); reflexivity.
Defined.

(** Property X19.  Widening a signed source to a wider signed destination, both ranges
    known: [Eval] returns the values that are at least the lower bound of
    the source range, at most the upper bound of the destination range, and
    at most 2^(8*size)-1 for the size of the source in bytes, which is the
    maximum of the unsigned type of that width. *)
Theorem Conversion_signed_widening (c : IntConversionConstraint.t)
    (g : Graph) (fromI toI : Interval) (fromT toT : types.BasicKind) :
  ssa.Type_ (IntConversionConstraint.X c) = types.Basic fromT ->
  ssa.Type_ (IntConversionConstraint.y c) = types.Basic toT ->
  Graph_Range g (IntConversionConstraint.X c) = IntervalRange fromI ->
  Graph_Range g (IntConversionConstraint.y c) = IntervalRange toI ->
  Interval_valid fromI = true -> Interval_valid toI = true ->
  known fromI = true -> known toI = true ->
  types.IsUnsigned fromT = false -> types.IsUnsigned toT = false ->
  types.Sizeof fromT < types.Sizeof toT ->
  exists r, IntConversionConstraint.Eval c g = (Ok (IntervalRange r), (c, g))
            /\ Interval_valid r = true
            /\ forall x, contains r x
                         = Z_leb (lower fromI) (finite x)
                           && ((x <=? 2 ^ (8 * types.Sizeof fromT) - 1)
                               && Z_leb (finite x) (upper toI)).
Proof.
  intros HX Hy Hf Ht Vf Vt Kf Kt Hu1 Hu2 Hw.
  rewrite (Conversion_Eval_run c g fromI toI fromT toT HX Hy Hf Ht).
  rewrite Kf, Kt, Hu1, Hu2. cbn [negb andb].
  assert (E : (types.Sizeof toT >? types.Sizeof fromT) = true)
    by (apply Z.gtb_lt; assumption).
  rewrite E.
  rewrite max_of_width_value by (pose proof (Sizeof_positive fromT); lia).
  cbn [bind].
  destruct (known_bounds_shapes fromI Vf Kf) as [Sl _].
  destruct (known_bounds_shapes toI Vt Kt) as [_ Su].
  destruct (widening_result NInfinity (lower fromI) (upper toI)
              (2 ^ (8 * types.Sizeof fromT) - 1) shape_NInfinity Sl Su)
    as (r & Er & Vr & Hr).
  change (NewZ (Some (2 ^ (8 * types.Sizeof fromT) - 1)))
    with (finite (2 ^ (8 * types.Sizeof fromT) - 1)).
  rewrite Er. exists r. split; [reflexivity|]. split; [assumption|].
  intro x. rewrite Hr, (proj1 (Z_leb_infinities x)). reflexivity.
Qed.

Lemma Conversion_signed_widening_witness :
  let c := {| IntConversionConstraint.y := value 1 types.Int64;
              IntConversionConstraint.X := value 0 types.Int8 |} in
  let g := graph_of [(value 0 types.Int8, IntervalRange (closed (-5) 300));
                     (value 1 types.Int64, IntervalRange (closed 0 1000))] in
  exists r, IntConversionConstraint.Eval c g = (Ok (IntervalRange r), (c, g))
            /\ Interval_valid r = true
            /\ forall x, contains r x
                         = Z_leb (lower (closed (-5) 300)) (finite x)
                           && ((x <=? 2 ^ (8 * types.Sizeof types.Int8) - 1)
                               && Z_leb (finite x) (upper (closed 0 1000))).
Proof.
  cbv zeta.
  apply (Conversion_signed_widening
           {| IntConversionConstraint.y := value 1 types.Int64;
              IntConversionConstraint.X := value 0 types.Int8 |}
           _ (closed (-5) 300) (closed 0 1000) types.Int8 types.Int64);
    reflexivity.
Defined.

(** Property X20.  Every other conversion between basic types passes the source range
    through unchanged once both ranges are known: a destination that is
    not wider, and a signed source converted to an unsigned destination of
    any width.  While the source range is unknown [Eval] returns the range
    of the destination instead. *)
Theorem Conversion_passes_through (c : IntConversionConstraint.t)
    (g : Graph) (fromI toI : Interval) (fromT toT : types.BasicKind) :
  ssa.Type_ (IntConversionConstraint.X c) = types.Basic fromT ->
  ssa.Type_ (IntConversionConstraint.y c) = types.Basic toT ->
  Graph_Range g (IntConversionConstraint.X c) = IntervalRange fromI ->
  Graph_Range g (IntConversionConstraint.y c) = IntervalRange toI ->
  (known fromI = false ->
   IntConversionConstraint.Eval c g = (Ok (IntervalRange toI), (c, g)))
  /\ (known fromI = true -> known toI = true ->
      (types.Sizeof toT <=? types.Sizeof fromT)
      || (negb (types.IsUnsigned fromT) && types.IsUnsigned toT) = true ->
      IntConversionConstraint.Eval c g = (Ok (IntervalRange fromI), (c, g))).
Proof.
  intros HX Hy Hf Ht.
  rewrite (Conversion_Eval_run c g fromI toI fromT toT HX Hy Hf Ht).
  split.
  - intros ->. reflexivity.
  - intros -> -> H. cbn [negb].
    destruct (Z.leb_spec (types.Sizeof toT) (types.Sizeof fromT)) as [L|L].
    + assert (E : (types.Sizeof toT >? types.Sizeof fromT) = false)
        by (rewrite Z.gtb_ltb; apply Z.ltb_ge; assumption).
      rewrite E, !andb_false_r. reflexivity.
    + cbn [orb] in H. apply andb_true_iff in H. destruct H as [H1 H2].
      destruct (types.IsUnsigned fromT); [discriminate|].
      rewrite H2. reflexivity.
Qed.

Lemma Conversion_passes_through_witness :
  let c := {| IntConversionConstraint.y := value 1 types.Uint8;
              IntConversionConstraint.X := value 0 types.Uint32 |} in
  let g := graph_of [(value 0 types.Uint32, IntervalRange (closed 0 300));
                     (value 1 types.Uint8, IntervalRange (closed 0 255))] in
  (known (closed 0 300) = false ->
   IntConversionConstraint.Eval c g
   = (Ok (IntervalRange (closed 0 255)), (c, g)))
  /\ (known (closed 0 300) = true -> known (closed 0 255) = true ->
      (types.Sizeof types.Uint8 <=? types.Sizeof types.Uint32)
      || (negb (types.IsUnsigned types.Uint32) && types.IsUnsigned types.Uint8)
      = true ->
      IntConversionConstraint.Eval c g
      = (Ok (IntervalRange (closed 0 300)), (c, g))).
Proof.
  cbv zeta.
  apply (Conversion_passes_through
           {| IntConversionConstraint.y := value 1 types.Uint8;
              IntConversionConstraint.X := value 0 types.Uint32 |}
           _ (closed 0 300) (closed 0 255) types.Uint32 types.Uint8);
    reflexivity.
Defined.

(** ** Sorting *)

Lemma Zs_store_length (zs : Zs) : forall n z,
  length (Zs_store zs n z) = length zs.
Proof.
  induction zs as [|a zs IH]; intros [|n] z; cbn; auto.
Qed.

Lemma Zs_store_same (zs : Zs) : forall n z,
  (n < length zs)%nat -> nth_error (Zs_store zs n z) n = Some z.
Proof.
  induction zs as [|a zs IH]; intros [|n] z H; cbn in *; try lia; auto.
  apply IH. lia.
Qed.

Lemma Zs_store_other (zs : Zs) : forall n m z,
  n <> m -> nth_error (Zs_store zs n z) m = nth_error zs m.
Proof.
  induction zs as [|a zs IH]; intros [|n] [|m] z H; cbn; auto; try congruence.
Qed.

Lemma Zs_index_in_range (zs : Zs) (i : int) :
  0 <= i < Zs_Len zs ->
  exists z, Zs_index zs i = Some z /\ nth_error zs (Z.to_nat i) = Some z
            /\ (Z.to_nat i < length zs)%nat.
Proof.
  unfold Zs_Len, Zs_index. intro H.
  destruct (Z.ltb_spec i 0); [lia|].
  assert (L : (Z.to_nat i < length zs)%nat) by lia.
  destruct (nth_error zs (Z.to_nat i)) as [z|] eqn:E.
  - exists z. auto.
  - apply nth_error_None in E. lia.
Qed.

Lemma Zs_index_out_of_range (zs : Zs) (i : int) :
  i < 0 \/ Zs_Len zs <= i -> Zs_index zs i = None.
Proof.
  unfold Zs_Len, Zs_index. intro H.
  destruct (Z.ltb_spec i 0); [reflexivity|].
  apply nth_error_None. lia.
Qed.

(** Property X27.  [Swap] on two indices in range exchanges the two elements, leaves the
    others and the length as they are, and undoes itself when repeated;
    with an index out of range [Swap] and [Less] panic. *)
Theorem Zs_Swap_exchanges (zs : Zs) (i j : int) :
  (0 <= i < Zs_Len zs -> 0 <= j < Zs_Len zs ->
   exists zs', Zs_Swap zs i j = Some zs'
               /\ Zs_Len zs' = Zs_Len zs
               /\ Zs_index zs' i = Zs_index zs j
               /\ Zs_index zs' j = Zs_index zs i
               /\ (forall k, k <> i -> k <> j ->
                             Zs_index zs' k = Zs_index zs k)
               /\ Zs_Swap zs' i j = Some zs)
  /\ (i < 0 \/ Zs_Len zs <= i \/ j < 0 \/ Zs_Len zs <= j ->
      Zs_Swap zs i j = None /\ Zs_Less zs i j = None).
Proof.
  split.
  - intros Hi Hj.
    destruct (Zs_index_in_range zs i Hi) as (a & Ea & Na & La).
    destruct (Zs_index_in_range zs j Hj) as (b & Eb & Nb & Lb).
    set (zs' := Zs_store (Zs_store zs (Z.to_nat i) b) (Z.to_nat j) a).
    assert (Hlen : length zs' = length zs)
      by (unfold zs'; rewrite !Zs_store_length; reflexivity).
    assert (Hget : forall k, 0 <= k ->
              nth_error zs' (Z.to_nat k)
              = if k =? j then Some a
                else if k =? i then Some b
                else nth_error zs (Z.to_nat k)).
    { intros k Hk. unfold zs'.
      destruct (Z.eqb_spec k j) as [->|Nj].
      - apply Zs_store_same. rewrite Zs_store_length. assumption.
      - rewrite Zs_store_other by lia.
        destruct (Z.eqb_spec k i) as [->|Ni].
        + apply Zs_store_same. assumption.
        + apply Zs_store_other. lia. }
    assert (Hidx : forall k,
              Zs_index zs' k
              = if k =? j then Some a
                else if k =? i then Some b else Zs_index zs k).
    { intro k. unfold Zs_index. destruct (Z.ltb_spec k 0) as [N|N].
      - destruct (Z.eqb_spec k j); [lia|]. destruct (Z.eqb_spec k i); [lia|].
        reflexivity.
      - apply Hget. assumption. }
    exists zs'. split; [unfold Zs_Swap; rewrite Ea, Eb; reflexivity|].
    split; [unfold Zs_Len; rewrite Hlen; reflexivity|].
    split.
    { rewrite Hidx, Eb. destruct (Z.eqb_spec i j) as [->|_].
      - congruence.
      - rewrite Z.eqb_refl. reflexivity. }
    split; [rewrite Hidx, Z.eqb_refl; symmetry; assumption|].
    split.
    { intros k Ni Nj. rewrite Hidx.
      destruct (Z.eqb_spec k j); [contradiction|].
      destruct (Z.eqb_spec k i); [contradiction|]. reflexivity. }
    unfold Zs_Swap. rewrite (Hidx j), (Hidx i), !Z.eqb_refl.
    assert (Ei : (if i =? j then Some a else Some b) = Some b).
    { destruct (Z.eqb_spec i j) as [->|_]; [congruence | reflexivity]. }
    rewrite Ei. f_equal.
    apply nth_error_ext. intro n.
    destruct (Nat.eq_dec n (Z.to_nat j)) as [->|Nj].
    + rewrite Zs_store_same by (rewrite Zs_store_length, Hlen; assumption).
      symmetry. assumption.
    + rewrite Zs_store_other by congruence.
      destruct (Nat.eq_dec n (Z.to_nat i)) as [->|Ni].
      * rewrite Zs_store_same by (rewrite Hlen; assumption).
        symmetry. assumption.
      * rewrite Zs_store_other by congruence.
        unfold zs'. rewrite !Zs_store_other by congruence. reflexivity.
  - intro H. unfold Zs_Swap, Zs_Less.
    destruct H as [H | [H | [H | H]]].
    + rewrite (Zs_index_out_of_range zs i) by auto.
      split; [destruct (Zs_index zs j)|]; reflexivity.
    + rewrite (Zs_index_out_of_range zs i) by auto.
      split; [destruct (Zs_index zs j)|]; reflexivity.
    + rewrite (Zs_index_out_of_range zs j) by auto.
      split; [|destruct (Zs_index zs i)]; reflexivity.
    + rewrite (Zs_index_out_of_range zs j) by auto.
      split; [|destruct (Zs_index zs i)]; reflexivity.
Qed.

Lemma Zs_Swap_exchanges_witness :
  exists zs', Zs_Swap [finite 3; NInfinity; finite 1] 0 2 = Some zs'
              /\ Zs_Len zs' = Zs_Len [finite 3; NInfinity; finite 1]
              /\ Zs_index zs' 0 = Zs_index [finite 3; NInfinity; finite 1] 2
              /\ Zs_index zs' 2 = Zs_index [finite 3; NInfinity; finite 1] 0
              /\ (forall k, k <> 0 -> k <> 2 ->
                            Zs_index zs' k
                            = Zs_index [finite 3; NInfinity; finite 1] k)
              /\ Zs_Swap zs' 0 2 = Some [finite 3; NInfinity; finite 1].
Proof.
  apply (proj1 (Zs_Swap_exchanges [finite 3; NInfinity; finite 1] 0 2));
    cbn; lia.
Defined.

Lemma Less_value (a b : Z) :
  Z_shape a -> Z_shape b ->
  (c <- Z_Cmp a b ;; Ok (c =? -1)) = Ok (negb (Z_leb b a)).
Proof. intros Ha Hb. by_shape. Qed.

Lemma Zs_element_shape (zs : Zs) (i : int) :
  forallb Z_valid zs = true -> 0 <= i < Zs_Len zs ->
  exists z, Zs_index zs i = Some z /\ Z_shape z.
Proof.
  intros V H. destruct (Zs_index_in_range zs i H) as (z & Ez & Nz & _).
  exists z. split; [assumption|].
  apply Z_valid_shape. rewrite forallb_forall in V. apply V.
  apply (nth_error_In _ _ Nz).
Qed.

(** Property X28.  On a slice of well-formed values [Less] never panics for indices in
    range and is a strict order, as sorting needs: irreflexive,
    asymmetric and transitive, and two elements neither of which is less
    than the other are the same value. *)
Theorem Zs_Less_strict_order (zs : Zs) (i j k : int) :
  forallb Z_valid zs = true ->
  0 <= i < Zs_Len zs -> 0 <= j < Zs_Len zs -> 0 <= k < Zs_Len zs ->
  exists ij ji jk ik,
    Zs_Less zs i j = Some (Ok ij) /\ Zs_Less zs j i = Some (Ok ji)
    /\ Zs_Less zs j k = Some (Ok jk) /\ Zs_Less zs i k = Some (Ok ik)
    /\ Zs_Less zs i i = Some (Ok false)
    /\ (ij = true -> ji = false)
    /\ (ij = true -> jk = true -> ik = true)
    /\ (ij = false -> ji = false -> Zs_index zs i = Zs_index zs j).
Proof.
  intros V Hi Hj Hk.
  destruct (Zs_element_shape zs i V Hi) as (a & Ea & Sa).
  destruct (Zs_element_shape zs j V Hj) as (b & Eb & Sb).
  destruct (Zs_element_shape zs k V Hk) as (c & Ec & Sc).
  unfold Zs_Less. rewrite Ea, Eb, Ec.
  rewrite !Less_value by assumption.
  do 4 eexists. repeat (split; [reflexivity|]).
  split; [rewrite (Z_leb_refl a Sa); reflexivity|].
  split.
  { intro H. apply negb_true_iff in H.
    rewrite (Z_leb_total b a Sb Sa H). reflexivity. }
  split.
  { intros H1 H2. apply negb_true_iff in H1, H2. apply negb_true_iff.
    destruct (Z_leb c a) eqn:E; [|reflexivity].
    pose proof (Z_leb_total b a Sb Sa H1) as Lab.
    rewrite (Z_leb_trans c a b Sc Sa Sb E Lab) in H2. discriminate. }
  intros H1 H2. apply negb_false_iff in H1, H2.
  f_equal. apply Z_leb_antisym; assumption.
Qed.

Lemma Zs_Less_strict_order_witness :
  exists ij ji jk ik,
    Zs_Less [finite 3; NInfinity; finite 1] 1 2 = Some (Ok ij)
    /\ Zs_Less [finite 3; NInfinity; finite 1] 2 1 = Some (Ok ji)
    /\ Zs_Less [finite 3; NInfinity; finite 1] 2 0 = Some (Ok jk)
    /\ Zs_Less [finite 3; NInfinity; finite 1] 1 0 = Some (Ok ik)
    /\ Zs_Less [finite 3; NInfinity; finite 1] 1 1 = Some (Ok false)
    /\ (ij = true -> ji = false)
    /\ (ij = true -> jk = true -> ik = true)
    /\ (ij = false -> ji = false ->
        Zs_index [finite 3; NInfinity; finite 1] 1
        = Zs_index [finite 3; NInfinity; finite 1] 2).
Proof.
  apply (Zs_Less_strict_order [finite 3; NInfinity; finite 1] 1 2 0);
    try reflexivity; cbn; lia.
Defined.

(** ** Textual form *)

Lemma to_int_parses (n : int) :
  NilZero.int_of_string (NilZero.string_of_int (Z.to_int n))
  = Some (Z.to_int n).
Proof.
  apply NilZero.isi; destruct n as [|p|p]; cbn; try discriminate;
    intro H; injection H as H; apply (Unsigned.to_uint_nonnil p H).
Qed.

Lemma decimal_injective (a b : int) :
  NilZero.string_of_int (Z.to_int a) = NilZero.string_of_int (Z.to_int b) ->
  a = b.
Proof.
  intro H. pose proof (to_int_parses a) as Ha. rewrite H, to_int_parses in Ha.
  injection Ha as Ha. rewrite <- (DecimalZ.of_to a), <- (DecimalZ.of_to b).
  congruence.
Qed.

Lemma decimal_not_infinity (a : int) :
  NilZero.string_of_int (Z.to_int a) <> infinity_sign
  /\ NilZero.string_of_int (Z.to_int a) <> ("-" ++ infinity_sign)%string.
Proof.
  pose proof (to_int_parses a) as Ha.
  split; intro H; rewrite H in Ha; vm_compute in Ha; discriminate.
Qed.

(** Property X29.  [String] tells well-formed extended integers apart: two of them with
    the same text are the same value. *)
Theorem Z_String_injective (a b : Z) :
  Z_valid a = true -> Z_valid b = true -> Z_String a = Z_String b -> a = b.
Proof.
  intros Ha Hb. apply Z_valid_shape in Ha, Hb.
  destruct Ha as [x| |], Hb as [y| |]; cbn; intro H;
    try reflexivity; try discriminate;
    try (exfalso; apply (proj1 (decimal_not_infinity x)); assumption);
    try (exfalso; apply (proj2 (decimal_not_infinity x)); assumption);
    try (exfalso; apply (proj1 (decimal_not_infinity y)); symmetry; assumption);
    try (exfalso; apply (proj2 (decimal_not_infinity y)); symmetry; assumption).
  rewrite (decimal_injective x y H). reflexivity.
Qed.

Lemma Z_String_injective_witness : finite 12 = finite 12.
Proof.
  apply (Z_String_injective (finite 12) (finite 12)); reflexivity.
Defined.

Lemma decimal_first_byte (a : int) :
  exists c s, NilZero.string_of_int (Z.to_int a) = String c s
              /\ c <> ascii_of_nat 226.
Proof.
  destruct a as [|p|p]; cbn.
  - do 2 eexists. split; [reflexivity | discriminate].
  - unfold NilZero.string_of_uint.
    destruct (Pos.to_uint p); cbn; do 2 eexists;
      (split; [reflexivity | discriminate]).
  - do 2 eexists. split; [reflexivity | discriminate].
Qed.

Lemma concrete_text (l u : Z) :
  Z_shape l -> Z_leb l u = true ->
  Interval_String {| known := true; lower := l; upper := u |}
  <> Interval_String EmptyI
  /\ Interval_String {| known := true; lower := l; upper := u |}
     <> Interval_String Interval_zero_value.
Proof.
  intros Hl H. unfold Interval_String.
  rewrite (concrete_not_Empty l u H). cbn [IsKnown known negb lower upper].
  split; [cbn; discriminate|].
  destruct Hl as [x| |].
  - destruct (decimal_first_byte x) as (c & s & E & Hc).
    change (Z_String (finite x)) with (NilZero.string_of_int (Z.to_int x)).
    rewrite E. cbn. intro F. injection F as F _. contradiction.
  - cbn. discriminate.
  - cbn. discriminate.
Qed.

(** Property X30.  [String] tells the three states of an interval apart: only the empty
    interval is rendered as the empty braces, and only the unknown one as
    the pair of bottom signs. *)
Theorem Interval_String_states (i : Interval) :
  Interval_valid i = true ->
  (Interval_String i = Interval_String EmptyI <-> i = EmptyI)
  /\ (Interval_String i = Interval_String Interval_zero_value
      <-> i = Interval_zero_value)
  /\ Interval_String EmptyI = "{}"%string
  /\ Interval_String Interval_zero_value
     = ("[" ++ bottom_sign ++ ", " ++ bottom_sign ++ "]")%string.
Proof.
  intro V. destruct (Interval_valid_state i V) as [| |l u Hl Hu H].
  - repeat split; try reflexivity; intro E; try discriminate;
      cbn in E; discriminate.
  - repeat split; try reflexivity; intro E; try discriminate;
      cbn in E; discriminate.
  - destruct (concrete_text l u Hl H) as [N1 N2].
    repeat split; try reflexivity; intro E; try contradiction;
      exfalso; rewrite E in *; [apply N1 | apply N2]; reflexivity.
Qed.

Lemma Interval_String_states_witness :
  (Interval_String (closed 1 2) = Interval_String EmptyI
   <-> closed 1 2 = EmptyI)
  /\ (Interval_String (closed 1 2) = Interval_String Interval_zero_value
      <-> closed 1 2 = Interval_zero_value)
  /\ Interval_String EmptyI = "{}"%string
  /\ Interval_String Interval_zero_value
     = ("[" ++ bottom_sign ++ ", " ++ bottom_sign ++ "]")%string.
Proof. apply (Interval_String_states (closed 1 2)). reflexivity. Defined.

End vrp.
